(** * code-compass: the code indexer's chunking and indexing, embedded in Rocq

    The development follows [src/code_indexer/chunking_utils.py] and
    [src/code_indexer/code_indexer.py].

    - Python [str] values are lists of characters.  A character is one of the
      first 256 code points ([ascii]); the classes [\s] and [\w] and
      [str.strip] follow CPython's tables on that range.
    - The patterns handed to [re] are written as terms of [regex]; [rmatch] is
      a backtracking matcher with the priorities of [re] (ordered alternation,
      greedy and lazy repetition, zero-width assertions), [finditer] and
      [findall] scan as [re.finditer] and [re.findall] do.
    - The walker and the indexing loop thread an explicit state; operations
      that can raise return an [outcome]. *)

From Stdlib Require Import Ascii String.
From stdpp Require Import gmap list fin_maps.

Set Default Proof Using "Type".
Local Open Scope string_scope.
Local Open Scope list_scope.
Local Open Scope nat_scope.

(** ** Python strings *)

Module Str.

Abbreviation str := (list ascii).

Definition text (s : string) : str := list_ascii_of_string s.

Definition nl : ascii := ascii_of_nat 10.
Definition code (c : ascii) : nat := nat_of_ascii c.

Definition eqc (a b : ascii) : bool := Ascii.eqb a b.

Fixpoint eqs (a b : str) : bool :=
  match a, b with
  | [], [] => true
  | x :: a', y :: b' => eqc x y && eqs a' b'
  | _, _ => false
  end.

(** [str.isspace] on one character, and [\s] of [re] on [str] patterns:
    CPython's [_Py_ascii_whitespace] table plus U+0085 and U+00A0. *)
Definition is_space (c : ascii) : bool :=
  let n := code c in
  ((9 <=? n) && (n <=? 13)) || ((28 <=? n) && (n <=? 32))
  || (n =? 133) || (n =? 160).

(** [\w] of [re] on [str] patterns: alphanumeric ([str.isalnum]) or [_]. *)
Definition is_word (c : ascii) : bool :=
  let n := code c in
  ((48 <=? n) && (n <=? 57)) || ((65 <=? n) && (n <=? 90)) || (n =? 95)
  || ((97 <=? n) && (n <=? 122))
  || (n =? 170) || (n =? 178) || (n =? 179) || (n =? 181) || (n =? 185)
  || (n =? 186) || ((188 <=? n) && (n <=? 190))
  || ((192 <=? n) && (n <=? 214)) || ((216 <=? n) && (n <=? 246))
  || ((248 <=? n) && (n <=? 255)).

(** [s.startswith(p)] *)
Fixpoint startswith (p s : str) : bool :=
  match p, s with
  | [], _ => true
  | x :: p', y :: s' => eqc x y && startswith p' s'
  | _ :: _, [] => false
  end.

(** [p in s] *)
Fixpoint contains (p s : str) : bool :=
  startswith p s || match s with [] => false | _ :: s' => contains p s' end.

(** [s.lstrip()], [s.rstrip()], [s.strip()] *)
Fixpoint lstrip (s : str) : str :=
  match s with
  | c :: s' => if is_space c then lstrip s' else s
  | [] => []
  end.

Definition rstrip (s : str) : str := rev (lstrip (rev s)).
Definition strip (s : str) : str := rstrip (lstrip s).

(** Truth value of a string: non-empty. *)
Definition truthy (s : str) : bool :=
  match s with [] => false | _ :: _ => true end.

(** [s.split(sep)] for a one-character separator: never the empty list. *)
Fixpoint split (sep : ascii) (s : str) : list str :=
  match s with
  | [] => [[]]
  | c :: s' =>
      if eqc c sep then [] :: split sep s'
      else match split sep s' with
           | l :: ls => (c :: l) :: ls
           | [] => [[c]]
           end
  end.

(** [sep.join(parts)] *)
Fixpoint join (sep : str) (parts : list str) : str :=
  match parts with
  | [] => []
  | [p] => p
  | p :: ps => p ++ sep ++ join sep ps
  end.

(** [s[i:j]] for [0 <= i] and [0 <= j], on strings and on lists. *)
Definition slice {A : Type} (s : list A) (i j : nat) : list A :=
  firstn (j - i) (skipn i s).

(** [s.replace(old, new)]: occurrences left to right, not overlapping.  With
    an empty [old], [new] goes before every character and at the end. *)
Fixpoint replace_from (fuel : nat) (old new s : str) : str :=
  match fuel with
  | 0 => s
  | S f =>
      match s with
      | [] => if startswith old [] then new else []
      | c :: s' =>
          if startswith old s then
            match old with
            | [] => new ++ c :: replace_from f old new s'
            | _ :: _ => new ++ replace_from f old new (skipn (length old) s)
            end
          else c :: replace_from f old new s'
      end
  end.

Definition replace (old new s : str) : str :=
  replace_from (S (length s)) old new s.

(** [s.lower()] on the first 256 code points. *)
Definition lower_char (c : ascii) : ascii :=
  let n := code c in
  if ((65 <=? n) && (n <=? 90)) || ((192 <=? n) && (n <=? 214))
     || ((216 <=? n) && (n <=? 222))
  then ascii_of_nat (n + 32) else c.

Definition lower (s : str) : str := map lower_char s.

(** [s.rfind(c)] for one character: the last index, [None] for [-1]. *)
Fixpoint rfind (c : ascii) (s : str) : option nat :=
  match s with
  | [] => None
  | x :: s' =>
      match rfind c s' with
      | Some i => Some (S i)
      | None => if eqc x c then Some 0 else None
      end
  end.

(** Source text written line by line. *)
Definition unlines (ls : list string) : str := join [nl] (map text ls).

End Str.
Import Str.

(** ** Regular expressions as [re] matches them *)

Module Re.

(** One-character classes. *)
Inductive cset :=
| CChar (c : ascii)          (* a literal character *)
| CSpace                     (* \s *)
| CWord                      (* \w *)
| CDot                       (* .  (no DOTALL: anything but a newline) *)
| CNot (cs : cset)           (* [^...], \S *)
| COr (a b : cset).          (* [ab] *)

Fixpoint cset_mem (cs : cset) (c : ascii) : bool :=
  match cs with
  | CChar x => eqc c x
  | CSpace => is_space c
  | CWord => is_word c
  | CDot => negb (eqc c nl)
  | CNot a => negb (cset_mem a c)
  | COr a b => cset_mem a c || cset_mem b c
  end.

Inductive regex :=
| Eps
| Sym (cs : cset)
| Seq (r1 r2 : regex)
| Alt (r1 r2 : regex)              (* r1|r2, r1 tried first *)
| Rep (greedy : bool) (r : regex)  (* r* and r*? *)
| Bol                              (* ^ under re.MULTILINE *)
| Eos                              (* $ without re.MULTILINE *)
| Ahead (r : regex).               (* (?=r) *)

Definition opt (r : regex) : regex := Alt r Eps.             (* r? *)
Definition plus (r : regex) : regex := Seq r (Rep true r).   (* r+ *)
Definition star (r : regex) : regex := Rep true r.           (* r* *)
Definition lazy (r : regex) : regex := Rep false r.          (* r*? *)
Definition cat (rs : list regex) : regex := foldr Seq Eps rs.
Definition alts (r : regex) (rs : list regex) : regex := foldl Alt r rs.
Definition chr (c : string) : cset :=
  match c with String a _ => CChar a | EmptyString => CNot (COr CDot (CChar nl)) end.
Definition lit (s : string) : regex :=
  cat (map (fun c => Sym (CChar c)) (text s)).
Definition set (cs : list cset) : cset := foldr COr (CNot (COr CDot (CChar nl))) cs.

(** A position in the subject: the character before it, if any, and the
    text from it on. *)
Definition pos : Type := option ascii * str.
Definition cont : Type := option ascii -> str -> option pos.

Definition at_bol (prev : option ascii) : bool :=
  match prev with None => true | Some c => eqc c nl end.

Definition at_eos (s : str) : bool :=
  match s with
  | [] => true
  | [c] => eqc c nl
  | _ => false
  end.

(** The loop of a repetition over a [body] matcher: greedy takes the body
    first and falls back on the continuation, lazy the other way round.  A
    round counts only when the body consumed something. *)
Fixpoint rep_loop (body : option ascii -> str -> cont -> option pos)
  (greedy : bool) (k : cont) (fuel : nat) (prev : option ascii) (s : str)
  : option pos :=
  match fuel with
  | 0 => k prev s
  | S f =>
      let more (_ : unit) :=
        body prev s
          (fun p s' =>
             if length s' <? length s then rep_loop body greedy k f p s'
             else None) in
      if greedy then
        match more tt with Some e => Some e | None => k prev s end
      else
        match k prev s with Some e => Some e | None => more tt end
  end.

(** [rmatch r prev s k]: match [r] at the position [(prev, s)] and hand the
    position reached to [k]; when [k] fails, the next alternative in the
    order of [re] is tried.  [length s] rounds are enough for a repetition. *)
Fixpoint rmatch (r : regex) (prev : option ascii) (s : str) (k : cont)
  {struct r} : option pos :=
  match r with
  | Eps => k prev s
  | Sym cs =>
      match s with
      | c :: t => if cset_mem cs c then k (Some c) t else None
      | [] => None
      end
  | Seq r1 r2 => rmatch r1 prev s (fun p s' => rmatch r2 p s' k)
  | Alt r1 r2 =>
      match rmatch r1 prev s k with
      | Some e => Some e
      | None => rmatch r2 prev s k
      end
  | Rep greedy r1 => rep_loop (rmatch r1) greedy k (length s) prev s
  | Bol => if at_bol prev then k prev s else None
  | Eos => if at_eos s then k prev s else None
  | Ahead r1 =>
      match rmatch r1 prev s (fun p s' => Some (p, s')) with
      | Some _ => k prev s
      | None => None
      end
  end.

(** One attempt at one position, as the scanner of [re] makes it: with
    [must_advance] an empty match is refused at this position. *)
Definition match_here (r : regex) (must_advance : bool) (prev : option ascii)
  (s : str) : option pos :=
  rmatch r prev s
    (fun p s' => if must_advance && (length s' =? length s) then None
                 else Some (p, s')).

(** A match: start and end offsets, and the position after it. *)
Record found := { m_start : nat; m_end : nat; m_next : pos }.

(** [pattern.search] from offset [i]: the leftmost position with a match. *)
Fixpoint search (r : regex) (must_advance : bool) (prev : option ascii)
  (s : str) (i : nat) {struct s} : option found :=
  match match_here r must_advance prev s with
  | Some (p, s') =>
      Some {| m_start := i; m_end := i + (length s - length s'); m_next := (p, s') |}
  | None =>
      match s with
      | [] => None
      | c :: t => search r false (Some c) t (S i)
      end
  end.

(** The scanner behind [re.finditer] and [re.findall]: the next search
    starts where the last match ended and must advance after an empty one. *)
Fixpoint scan (fuel : nat) (r : regex) (must_advance : bool)
  (prev : option ascii) (s : str) (i : nat) : list (nat * nat) :=
  match fuel with
  | 0 => []
  | S f =>
      match search r must_advance prev s i with
      | None => []
      | Some m =>
          (m_start m, m_end m)
          :: scan f r (m_end m =? m_start m) (fst (m_next m)) (snd (m_next m)) (m_end m)
      end
  end.

(** [re.finditer(r, s)]: the spans [(match.start(), match.end())]. *)
Definition finditer (r : regex) (s : str) : list (nat * nat) :=
  scan (S (S (2 * length s))) r false None s 0.

(** [match.group(0)] of each match of [re.finditer(r, s)]. *)
Definition finditer_text (r : regex) (s : str) : list str :=
  map (fun '(i, j) => slice s i j) (finditer r s).

End Re.
Import Re.

(** ** chunking_utils.py *)

Inductive exn := ValueError | OSError | IndexError | OtherError.

Inductive outcome (A : Type) :=
| Ok (a : A)
| Raise (e : exn).
Arguments Ok {A} a.
Arguments Raise {A} e.

Definition newline : regex := Sym (CChar nl).
Definition ws : cset := CSpace.
Definition any_char : regex := Alt (Sym CDot) newline.       (* (?:.|\n) *)
Definition close_brace_line : regex := Seq Bol (lit "}").    (* (^\}) *)

Module Python.

(** [(class\s+\w+\s*(?:\([^)]*\))?\s*:(?:.|\n)*?)(?=\n\S|$)] *)
Definition class_pattern : regex :=
  cat [ lit "class"; plus (Sym ws); plus (Sym CWord); star (Sym ws);
        opt (cat [lit "("; star (Sym (CNot (chr ")"))); lit ")"]);
        star (Sym ws); lit ":"; lazy any_char;
        Ahead (Alt (Seq newline (Sym (CNot CSpace))) Eos) ].

(** [(def\s+\w+\s*\([^)]*\)\s*(?:->.*?)?\s*:(?:.|\n)*?)(?=\n\S|$)] *)
Definition function_pattern : regex :=
  cat [ lit "def"; plus (Sym ws); plus (Sym CWord); star (Sym ws);
        lit "("; star (Sym (CNot (chr ")"))); lit ")"; star (Sym ws);
        opt (Seq (lit "->") (lazy (Sym CDot)));
        star (Sym ws); lit ":"; lazy any_char;
        Ahead (Alt (Seq newline (Sym (CNot CSpace))) Eos) ].

(** [for d in defs: chunks.append(d); content = content.replace(d, '')] *)
Fixpoint extract (defs : list str) (chunks : list str) (content : str)
  : list str * str :=
  match defs with
  | [] => (chunks, content)
  | d :: rest => extract rest (chunks ++ [d]) (replace d [] content)
  end.

(** The loop over [content.split('\n')] that gathers module-level code. *)
Fixpoint module_level (lines : list str) (current_chunk : list str) : list str :=
  match lines with
  | [] => current_chunk
  | line :: rest =>
      if truthy (strip line) && negb (startswith (text " ") line) then
        module_level rest (current_chunk ++ [line])
      else if negb (Nat.eqb (length current_chunk) 0) then
        module_level rest (current_chunk ++ [line])
      else module_level rest current_chunk
  end.

(** [chunk_python_file(content)].  In both patterns group 1 is the whole
    match (the look-ahead is zero-width), so [re.findall] yields the matched
    texts. *)
Definition chunk_python_file (content : str) : list str :=
  let classes := finditer_text class_pattern content in
  let '(chunks, content) := extract classes [] content in
  let functions := finditer_text function_pattern content in
  let '(chunks, content) := extract functions chunks content in
  let current_chunk := module_level (split nl content) [] in
  let chunks :=
    if negb (Nat.eqb (length current_chunk) 0)
    then chunks ++ [join [nl] current_chunk] else chunks in
  if length chunks <=? 1 then [content] else chunks.

End Python.


(** The bookkeeping shared by [chunk_c_style_file] and
    [chunk_javascript_file]. *)
Module Spans.

Abbreviation span := (nat * nat)%type.

(** Tuple comparison [a <= b]. *)
Definition span_le (a b : span) : bool :=
  (fst a <? fst b) || ((fst a =? fst b) && (snd a <=? snd b)).

Fixpoint insert_sorted (x : span) (l : list span) : list span :=
  match l with
  | [] => [x]
  | y :: l' => if span_le x y then x :: l else y :: insert_sorted x l'
  end.

(** [sorted(class_positions)] *)
Definition sorted (l : list span) : list span := foldr insert_sorted [] l.

(** One round of the outer loop: the body run on every uncovered range. *)
Definition subtract (uncovered : list span) (cls : span) : list span :=
  let '(start, end_) := cls in
  flat_map
    (fun '(range_start, range_end) =>
       (if range_start <? start then [(range_start, start)] else [])
       ++ (if end_ <? range_end then [(end_, range_end)] else []))
    uncovered.

(** [uncovered_ranges] after the loop over [sorted(class_positions)]. *)
Definition uncovered_ranges (content : str) (class_positions : list span)
  : list span :=
  foldl subtract [(0, length content)] (sorted class_positions).

(** [for start, end in uncovered_ranges: section = content[start:end]; ...]:
    the texts matched by [patterns] in each section, in the order they are
    appended. *)
Definition extract_uncovered (patterns : list regex) (content : str)
  (uncovered : list span) : list str :=
  flat_map
    (fun '(start, end_) =>
       let section := slice content start end_ in
       flat_map (fun pattern => finditer_text pattern section) patterns)
    uncovered.

(** [if imports: chunks.append('\n'.join(imports))] *)
Definition import_chunk (imports : list str) : list str :=
  match imports with
  | [] => []
  | _ :: _ => [join [nl] imports]
  end.

(** [if len(chunks) <= 1: return [content]] then [return chunks] *)
Definition whole_file_if_few (chunks : list str) (content : str) : list str :=
  if length chunks <=? 1 then [content] else chunks.

End Spans.
Import Spans.

Module CStyle.

Definition word_in (ws : list string) : regex :=
  match ws with
  | [] => Eps
  | w :: rest => alts (lit w) (map lit rest)
  end.

(** [(?:<.*?>)?] *)
Definition generic_args : regex :=
  opt (cat [lit "<"; lazy (Sym CDot); lit ">"]).

(** [((?:public|private|protected)?\s*(?:class|struct|interface)\s+\w+
      (?:<.*?>)?(?:\s+extends\s+\w+(?:<.*?>)?)?
      (?:\s+implements\s+[\w,\s<>]+)?\s*\{(?:.|\n)*?)(^\})] *)
Definition class_pattern : regex :=
  cat [ opt (word_in ["public"; "private"; "protected"]); star (Sym ws);
        word_in ["class"; "struct"; "interface"]; plus (Sym ws);
        plus (Sym CWord); generic_args;
        opt (cat [plus (Sym ws); lit "extends"; plus (Sym ws);
                  plus (Sym CWord); generic_args]);
        opt (cat [plus (Sym ws); lit "implements"; plus (Sym ws);
                  plus (Sym (set [CWord; chr ","; CSpace; chr "<"; chr ">"]))]);
        star (Sym ws); lit "{"; lazy any_char; close_brace_line ].

Definition modifier : regex :=
  word_in ["public"; "private"; "protected"; "static"; "final"; "native";
           "synchronized"; "abstract"; "transient"].

(** [((?:public|...|transient)(?:\s+(?:public|...|transient))*
      \s+[\w<>\[\]]+\s+\w+\s*\([^\)]*\)(?:\s+throws[\w,\s]+)?
      \s*\{(?:.|\n)*?)(^\})] *)
Definition method_pattern : regex :=
  cat [ modifier; star (Seq (plus (Sym ws)) modifier);
        plus (Sym ws);
        plus (Sym (set [CWord; chr "<"; chr ">"; chr "["; chr "]"]));
        plus (Sym ws); plus (Sym CWord); star (Sym ws);
        lit "("; star (Sym (CNot (chr ")"))); lit ")";
        opt (cat [plus (Sym ws); lit "throws";
                  plus (Sym (set [CWord; chr ","; CSpace]))]);
        star (Sym ws); lit "{"; lazy any_char; close_brace_line ].

(** [(package\s+[\w.]+;|import\s+[\w.*]+;)] *)
Definition import_pattern : regex :=
  Alt (cat [lit "package"; plus (Sym ws);
            plus (Sym (set [CWord; chr "."])); lit ";"])
      (cat [lit "import"; plus (Sym ws);
            plus (Sym (set [CWord; chr "."; chr "*"])); lit ";"]).

(** [class_positions]: the spans of the class matches. *)
Definition class_positions (content : str) : list span :=
  finditer class_pattern content.

(** The chunks appended by the loop over [class_matches]. *)
Definition class_chunks (content : str) : list str :=
  finditer_text class_pattern content.

(** The chunks appended by the loop over [uncovered_ranges]. *)
Definition method_chunks (content : str) : list str :=
  extract_uncovered [method_pattern] content
    (uncovered_ranges content (class_positions content)).

Definition chunk_c_style_file (content : str) : list str :=
  let chunks := class_chunks content in
  let chunks := chunks ++ method_chunks content in
  let imports := finditer_text import_pattern content in
  let chunks := chunks ++ import_chunk imports in
  whole_file_if_few chunks content.

End CStyle.

Module JavaScript.

(** [(class\s+\w+(?:\s+extends\s+\w+)?\s*\{(?:.|\n)*?)(^\})] *)
Definition class_pattern : regex :=
  cat [ lit "class"; plus (Sym ws); plus (Sym CWord);
        opt (cat [plus (Sym ws); lit "extends"; plus (Sym ws); plus (Sym CWord)]);
        star (Sym ws); lit "{"; lazy any_char; close_brace_line ].

(** [\([^)]*\)\s*] *)
Definition params : list regex :=
  [lit "("; star (Sym (CNot (chr ")"))); lit ")"; star (Sym ws)].

(** [\{(?:.|\n)*?)(^\})] *)
Definition block : list regex := [lit "{"; lazy any_char; close_brace_line].

(** The three arrow-function patterns, [KW] being [const], [let] or [var]:
    [KW\s+\w+\s*=\s*] then an optional [async] with [\s*] after it, then
    [\([^)]*\)\s*=>\s*\{(?:.|\n)*?] and the closing [^\}]. *)
Definition arrow_pattern (kw : string) : regex :=
  cat ([ lit kw; plus (Sym ws); plus (Sym CWord); star (Sym ws); lit "=";
         star (Sym ws); opt (Seq (lit "async") (star (Sym ws))) ]
       ++ params ++ [lit "=>"; star (Sym ws)] ++ block).

Definition function_patterns : list regex :=
  [ (* (function\s+\w+\s*\([^)]*\)\s*\{(?:.|\n)*?)(^\}) *)
    cat ([lit "function"; plus (Sym ws); plus (Sym CWord); star (Sym ws)]
         ++ params ++ block);
    arrow_pattern "const";
    arrow_pattern "let";
    arrow_pattern "var";
    (* (export\s+(?:default\s+)?function\s+\w+\s*\([^)]*\)\s*\{(?:.|\n)*?)(^\}) *)
    cat ([lit "export"; plus (Sym ws);
          opt (Seq (lit "default") (plus (Sym ws)));
          lit "function"; plus (Sym ws); plus (Sym CWord); star (Sym ws)]
         ++ params ++ block) ].

(** [(import\s+.*?;|require\(.*?\))] *)
Definition import_pattern : regex :=
  Alt (cat [lit "import"; plus (Sym ws); lazy (Sym CDot); lit ";"])
      (cat [lit "require("; lazy (Sym CDot); lit ")"]).

Definition class_positions (content : str) : list span :=
  finditer class_pattern content.

Definition class_chunks (content : str) : list str :=
  finditer_text class_pattern content.

Definition function_chunks (content : str) : list str :=
  extract_uncovered function_patterns content
    (uncovered_ranges content (class_positions content)).

Definition chunk_javascript_file (content : str) : list str :=
  let chunks := class_chunks content in
  let chunks := chunks ++ function_chunks content in
  let imports := finditer_text import_pattern content in
  let chunks := chunks ++ import_chunk imports in
  whole_file_if_few chunks content.

End JavaScript.

Module ByLines.

(** [range(0, stop, step)] for [stop >= 1]: a zero step raises
    [ValueError], a negative one gives the empty range. *)
Fixpoint range_up (fuel i stop step : nat) : list nat :=
  match fuel with
  | 0 => []
  | S f => if i <? stop then i :: range_up f (i + step) stop step else []
  end.

Definition range0 (stop : nat) (step : Z) : outcome (list nat) :=
  match step with
  | Z0 => Raise ValueError
  | Zneg _ => Ok []
  | Zpos p => Ok (range_up stop 0 stop (Pos.to_nat p))
  end.

(** The body of the loop, for the window starting at line [i]. *)
Definition window (lines : list str) (max_lines : nat) (i : nat) : list str :=
  let chunk := join [nl] (slice lines i (i + max_lines)) in
  if truthy (strip chunk) then [chunk] else [].

(** [chunk_by_lines(content, max_lines)] *)
Definition chunk_by_lines (content : str) (max_lines : Z) : outcome (list str) :=
  let lines := split nl content in
  match range0 (length lines) max_lines with
  | Raise e => Raise e
  | Ok starts => Ok (flat_map (window lines (Z.to_nat max_lines)) starts)
  end.

End ByLines.

(** [os.path.splitext(p)[1]] (posixpath): from the last dot of the last path
    component, unless only dots come before it in that component. *)
Fixpoint has_non_dot (name : str) : bool :=
  match name with
  | [] => false
  | c :: rest => if negb (eqc c ".") then true else has_non_dot rest
  end.

Definition splitext_ext (p : str) : str :=
  let filename_index := match rfind "/" p with Some i => S i | None => 0 end in
  match rfind "." p with
  | Some dot_index =>
      if (filename_index <=? dot_index)
         && has_non_dot (slice p filename_index dot_index)
      then skipn dot_index p else []
  | None => []
  end.

Definition ext_in (ext : str) (exts : list string) : bool :=
  existsb (fun e => eqs ext (text e)) exts.

(** [chunk_code_file(content, file_path)] *)
Definition chunk_code_file (content file_path : str) : outcome (list str) :=
  let ext := lower (splitext_ext file_path) in
  if ext_in ext [".py"] then Ok (Python.chunk_python_file content)
  else if ext_in ext [".java"; ".cs"; ".cpp"; ".c"; ".h"] then
    Ok (CStyle.chunk_c_style_file content)
  else if ext_in ext [".js"; ".ts"] then
    Ok (JavaScript.chunk_javascript_file content)
  else ByLines.chunk_by_lines content 100.

(** ** code_indexer.py *)

Module Indexer.

(** Computations over a state [S] that may raise; what was written to the
    state before a raise stays written. *)
Definition M (S A : Type) : Type := S -> outcome A * S.

Definition ret {S A} (a : A) : M S A := fun st => (Ok a, st).

Definition bind {S A B} (m : M S A) (f : A -> M S B) : M S B :=
  fun st =>
    match m st with
    | (Ok a, st') => f a st'
    | (Raise e, st') => (Raise e, st')
    end.

Definition lift {S A} (o : outcome A) : M S A := fun st => (o, st).

Definition modify {S} (f : S -> S) : M S unit := fun st => (Ok tt, f st).

(** [try: body except Exception as e: handler(e)] *)
Definition try_except {S} (body : M S unit) (handler : exn -> M S unit) : M S unit :=
  fun st =>
    match body st with
    | (Ok _, st') => (Ok tt, st')
    | (Raise e, st') => handler e st'
    end.

Notation "x <- m ;; k" := (bind m (fun x => k))
  (at level 100, m at next level, right associativity).
Notation "m ;;; k" := (bind m (fun _ => k))
  (at level 100, right associativity).

(** [for x in xs: body(x)] *)
Fixpoint for_each {S A} (xs : list A) (body : A -> M S unit) : M S unit :=
  match xs with
  | [] => ret tt
  | x :: rest => body x ;;; for_each rest body
  end.

(** [enumerate(xs)] *)
Definition enumerate {A} (xs : list A) : list (nat * A) := imap (fun i x => (i, x)) xs.

Record metadata := {
  file_path : str;
  repo_name : str;
  chunk_id : nat;
  language : str
}.

Inductive log_entry :=
| LogProcessing (repo_path : str)
| LogFound (n : nat)
| LogFileError (file_path : str) (e : exn)
| LogNoChunks
| LogIndexedBatch (k total : nat).

Definition code_extensions : list string :=
  [".py"; ".java"; ".js"; ".ts"; ".go"; ".rb"; ".cs"; ".cpp"; ".c"; ".h"].

Definition excluded_dirs : list string :=
  ["node_modules"; "venv"; ".git"; "__pycache__"; "build"; "dist"].

(** [os.path.basename(p)] (posixpath) *)
Definition basename (p : str) : str :=
  match rfind "/" p with Some i => skipn (S i) p | None => p end.

Definition batch_size : nat := 32.

Section Collaborators.

(** The file system, the embedding model and its rows are outside the
    repository: [glob pattern] is [glob.glob(pattern, recursive=True)],
    [read_file p] is the [open(...)]/[f.read()] pair, [relpath p start] is
    [os.path.relpath], [encode batch] is [embedding_model.encode].  Reading
    a file and taking a relative path may raise; the calls of the embedding
    model and of the store are taken to return. *)
Variable glob : str -> list str.
Variable read_file : str -> outcome str.
Variable relpath : str -> str -> outcome str.
Variable embedding : Type.
Variable encode : list str -> list embedding.

(** The lists the walk fills, and the log. *)
Record walk := {
  all_chunks : list str;
  file_metadata : list metadata;
  wlog : list log_entry
}.

Definition append_chunk (chunk : str) (md : metadata) : M walk unit :=
  modify (fun w => {| all_chunks := all_chunks w ++ [chunk];
                      file_metadata := file_metadata w ++ [md];
                      wlog := wlog w |}).

Definition log_walk (e : log_entry) : M walk unit :=
  modify (fun w => {| all_chunks := all_chunks w;
                      file_metadata := file_metadata w;
                      wlog := wlog w ++ [e] |}).

(** The body of the [try] for one file. *)
Definition file_body (repo_path file_path : str) : M walk unit :=
  content <- lift (read_file file_path) ;;
  rel_path <- lift (relpath file_path repo_path) ;;
  chunks <- lift (chunk_code_file content file_path) ;;
  for_each (enumerate chunks)
    (fun '(i, chunk) =>
       append_chunk chunk
         {| file_path := rel_path;
            repo_name := basename repo_path;
            chunk_id := i;
            language := skipn 1 (splitext_ext file_path) |}).

Definition excluded (file_path : str) : bool :=
  existsb (fun excluded_dir => contains (text excluded_dir) file_path) excluded_dirs.

(** One round of [for file_path in code_files]. *)
Definition process_file (repo_path file_path : str) : M walk unit :=
  if excluded file_path then ret tt
  else try_except (file_body repo_path file_path)
         (fun e => log_walk (LogFileError file_path e)).

Definition walk_files (repo_path : str) (code_files : list str) : M walk unit :=
  for_each code_files (process_file repo_path).

(** [PointStruct(id=..., vector=..., payload={...})] *)
Record point := {
  id : nat;
  vector : embedding;
  payload_text : str;
  payload : metadata
}.

(** The vector store behind [qdrant_client]: the points of the collection
    by id, and the batches handed to [upsert] so far.  [upsert] inserts a
    point or overwrites the one stored under the same id. *)
Record client := {
  collection : gmap nat point;
  upserts : list (list point);
  log : list log_entry
}.

(** The collection after the points of one [upsert] call. *)
Definition store_points (m : gmap nat point) (points : list point) : gmap nat point :=
  foldl (fun m p => <[id p := p]> m) m points.

Definition upsert (points : list point) : M client unit :=
  modify (fun c =>
    {| collection := store_points (collection c) points;
       upserts := upserts c ++ [points];
       log := log c |}).

Definition log_client (e : log_entry) : M client unit :=
  modify (fun c => {| collection := collection c; upserts := upserts c;
                      log := log c ++ [e] |}).

(** [xs[j]], raising [IndexError] out of range. *)
Definition index {S A} (xs : list A) (j : nat) : M S A :=
  lift (match xs !! j with Some x => Ok x | None => Raise IndexError end).

(** [[f(x) for x in xs]] with an [f] that may raise. *)
Fixpoint comprehension {S A B} (xs : list A) (f : A -> M S B) : M S (list B) :=
  match xs with
  | [] => ret []
  | x :: rest => y <- f x ;; ys <- comprehension rest f ;; ret (y :: ys)
  end.

(** The body of [for i in range(0, len(all_chunks), batch_size)]. *)
Definition index_batch (chunks : list str) (mds : list metadata) (i : nat)
  : M client unit :=
  let batch_chunks := slice chunks i (i + batch_size) in
  let batch_metadata := slice mds i (i + batch_size) in
  let embeddings := encode batch_chunks in
  points <- comprehension (enumerate embeddings)
              (fun '(j, emb) =>
                 t <- index batch_chunks j ;;
                 md <- index batch_metadata j ;;
                 ret {| id := i + j; vector := emb; payload_text := t;
                        payload := md |}) ;;
  upsert points ;;;
  log_client (LogIndexedBatch (i / batch_size + 1)
                ((length chunks + batch_size - 1) / batch_size)).

(** [process_repository(repo_path, embedding_model, qdrant_client,
    collection_name)] *)
Definition process_repository (repo_path : str) : M client unit :=
  log_client (LogProcessing repo_path) ;;;
  let code_files :=
    flat_map (fun ext => glob (repo_path ++ text "/**/*" ++ text ext))
      code_extensions in
  log_client (LogFound (length code_files)) ;;;
  fun c =>
    let '(walked, w) :=
      walk_files repo_path code_files
        {| all_chunks := []; file_metadata := []; wlog := log c |} in
    let c := {| collection := collection c; upserts := upserts c;
                log := wlog w |} in
    match walked with
    | Raise e => (Raise e, c)
    | Ok _ =>
        match all_chunks w with
        | [] => log_client LogNoChunks c
        | _ :: _ =>
            for_each (ByLines.range_up (length (all_chunks w)) 0
                        (length (all_chunks w)) batch_size)
              (index_batch (all_chunks w) (file_metadata w)) c
        end
    end.

(** The loop of [main]: [for repo_path in config['repositories']]. *)
Definition index_repositories (repositories : list str) : M client unit :=
  for_each repositories process_repository.

(** The ids handed to [upsert], in the order of the calls. *)
Definition upserted_ids (c : client) : list nat :=
  map id (concat (upserts c)).

(** *** Effects as data

    What a computation adds to the lists of the walk, and to the client. *)
Definition walk_add (chunks : list str) (mds : list metadata)
  (entries : list log_entry) (w : walk) : walk :=
  {| all_chunks := all_chunks w ++ chunks;
     file_metadata := file_metadata w ++ mds;
     wlog := wlog w ++ entries |}.

Definition client_add (batches : list (list point)) (entries : list log_entry)
  (c : client) : client :=
  {| collection := foldl store_points (collection c) batches;
     upserts := upserts c ++ batches;
     log := log c ++ entries |}.

(** The chunks of one file with their metadata, or the exception that the
    read, the relative path or the segmenter raised. *)
Definition file_chunks (repo_path path : str) : outcome (list (str * metadata)) :=
  match read_file path with
  | Raise e => Raise e
  | Ok content =>
      match relpath path repo_path with
      | Raise e => Raise e
      | Ok rel_path =>
          match chunk_code_file content path with
          | Raise e => Raise e
          | Ok chunks =>
              Ok (map (fun '(i, chunk) =>
                         (chunk, {| file_path := rel_path;
                                    repo_name := basename repo_path;
                                    chunk_id := i;
                                    language := skipn 1 (splitext_ext path) |}))
                    (enumerate chunks))
          end
      end
  end.

(** What one round of the loop over [code_files] adds. *)
Definition file_effect (repo_path path : str)
  : list str * list metadata * list log_entry :=
  if excluded path then ([], [], [])
  else match file_chunks repo_path path with
       | Raise e => ([], [], [LogFileError path e])
       | Ok cms => (map fst cms, map snd cms, [])
       end.

(** A computation on the client that writes the same batches and log
    entries, with the same outcome, whatever the client holds. *)
Definition uniform {A} (m : M client A) : Prop :=
  ∃ o batches entries, ∀ c, m c = (o, client_add batches entries c).

End Collaborators.

End Indexer.

(** ** Sample inputs *)

Module Sample.

(** A file system with two repositories: [/repos/a] holds [one.py] and
    [two.py] (the second cannot be read), [/repos/b] holds [main.py]. *)
Definition glob (pattern : str) : list str :=
  if eqs pattern (text "/repos/a/**/*.py") then
    [text "/repos/a/one.py"; text "/repos/a/two.py"]
  else if eqs pattern (text "/repos/b/**/*.py") then [text "/repos/b/main.py"]
  else [].

Definition read_file (path : str) : outcome str :=
  if eqs path (text "/repos/a/one.py") then
    Ok (unlines ["import os"; "def f():"; "    return 1"])
  else if eqs path (text "/repos/b/main.py") then Ok (unlines ["y = 2"])
  else Raise OSError.

Definition relpath (path start : str) : outcome str :=
  Ok (skipn (S (length start)) path).

(** An embedding model with one row per text. *)
Definition encode (batch : list str) : list nat := map (fun t => length t) batch.

Definition empty_client : Indexer.client nat :=
  {| Indexer.collection := ∅; Indexer.upserts := []; Indexer.log := [] |}.

Definition index_repositories (repositories : list string)
  : Indexer.M (Indexer.client nat) unit :=
  Indexer.index_repositories glob read_file relpath nat encode (map text repositories).

Definition empty_walk : Indexer.walk :=
  {| Indexer.all_chunks := []; Indexer.file_metadata := []; Indexer.wlog := [] |}.

Definition class_with_two_methods : str :=
  unlines [ "// shapes";
            "public class Shape {";
            "    public int area() {";
            "        return 0;";
            "    }";
            "    private void reset() {";
            "    }";
            "}";
            "" ].

(** A class written without indentation: the closing brace of its first
    method is the first line that starts with a closing brace. *)
Definition unindented_class : str :=
  unlines [ "class A {";
            "public void f() {";
            "}";
            "public void g() {";
            "}";
            "}" ].

(** Two statements and no class, method or function. *)
Definition import_and_statement : str := unlines ["import a;"; "int x;"].

End Sample.

Import Indexer.

(** ** What the claims speak about *)

(** A string with a character that is not white space: [s.strip()] is true. *)
Definition has_text (s : str) : bool := existsb (fun c => negb (is_space c)) s.

(** [line] occurs in [s]. *)
Definition is_infix (line s : str) : Prop := ∃ pre post, s = pre ++ line ++ post.

(** Two half-open spans share a position. *)
Definition overlaps (a b : span) : bool :=
  (fst a <? snd b) && (fst b <? snd a) && (fst a <? snd a) && (fst b <? snd b).

(** Increasing and pairwise disjoint: every range ends before the next
    one starts. *)
Fixpoint sorted_disjoint (l : list span) : bool :=
  match l with
  | a :: ((b :: _) as rest) => (snd a <=? fst b) && sorted_disjoint rest
  | _ => true
  end.

Definition within (n : nat) (l : list span) : bool :=
  forallb (fun r => (fst r <=? snd r) && (snd r <=? n)) l.

Definition avoids (l classes : list span) : bool :=
  forallb (fun r => forallb (fun c => negb (overlaps r c)) classes) l.

Fixpoint strictly_increasing (l : list nat) : bool :=
  match l with
  | a :: ((b :: _) as rest) => (a <? b) && strictly_increasing rest
  | _ => true
  end.

(** A character every match of the pattern has to consume. *)
Fixpoint requires (c : ascii) (r : regex) : bool :=
  match r with
  | Sym (CChar x) => eqc x c
  | Seq r1 r2 => requires c r1 || requires c r2
  | Alt r1 r2 => requires c r1 && requires c r2
  | _ => false
  end.

(** The character before the position reached once [mid] is consumed from
    a position that had [prev] before it. *)
Definition last_char (prev : option ascii) (mid : str) : option ascii :=
  match last mid with Some c => Some c | None => prev end.

(** Patterns every match of which consumes at least one character. *)
Fixpoint consumes (r : regex) : bool :=
  match r with
  | Sym _ => true
  | Seq r1 r2 => consumes r1 || consumes r2
  | Alt r1 r2 => consumes r1 && consumes r2
  | _ => false
  end.

(** A newline followed by a closing brace: where a line after the first
    starts with [}]. *)
Definition line_closing_brace : str := [nl; "}"%char].

(** The pattern starts with [^] and a literal closing brace. *)
Definition brace_line (r : regex) : bool :=
  match r with
  | Seq Bol (Seq (Sym (CChar c)) _) => eqc c "}"
  | _ => false
  end.

(** A sequence one of whose later items is [^] and a closing brace. *)
Fixpoint closes_on_brace_line (r : regex) : bool :=
  match r with
  | Seq r1 r2 => brace_line r1 || closes_on_brace_line r2
  | _ => false
  end.

(** A sequence that consumes a character first and closes on [^] and a
    closing brace further on, as the class, method and function patterns of
    the c_style and javascript families do. *)
Definition ends_on_brace_line (r : regex) : bool :=
  match r with
  | Seq r1 r2 => consumes r1 && closes_on_brace_line r2
  | _ => false
  end.

(** The chunks [chunk_c_style_file] and [chunk_javascript_file] have
    gathered when they test [len(chunks) <= 1]. *)
Definition c_style_found (content : str) : list str :=
  CStyle.class_chunks content ++ CStyle.method_chunks content
  ++ import_chunk (finditer_text CStyle.import_pattern content).

Definition javascript_found (content : str) : list str :=
  JavaScript.class_chunks content ++ JavaScript.function_chunks content
  ++ import_chunk (finditer_text JavaScript.import_pattern content).

(** The stages of [chunk_python_file]: the class texts matched in the
    content, the working copy once they are removed, the function texts
    matched in that copy, the working copy once those are removed too, and
    the module-level lines gathered from it. *)
Definition python_classes (content : str) : list str :=
  finditer_text Python.class_pattern content.

Definition python_without_classes (content : str) : str :=
  (Python.extract (python_classes content) [] content).2.

Definition python_functions (content : str) : list str :=
  finditer_text Python.function_pattern (python_without_classes content).

Definition python_remainder (content : str) : str :=
  (Python.extract (python_functions content) [] (python_without_classes content)).2.

Definition python_module_level (content : str) : list str :=
  Python.module_level (split nl (python_remainder content)) [].

(** Spans in scanning order between [lo] and [n]: each starts at or after
    the end of the one before and ends inside the text. *)
Fixpoint spans_in_order (lo n : nat) (l : list span) : Prop :=
  match l with
  | [] => True
  | (a, b) :: rest => lo ≤ a ∧ a ≤ b ∧ b ≤ n ∧ spans_in_order b n rest
  end.

(** A line the module-level loop of [chunk_python_file] takes as the start
    of module-level code. *)
Definition top_level (line : str) : bool :=
  truthy (strip line) && negb (startswith (text " ") line).

(** The files [process_repository] walks, and the chunks and metadata the
    walk gathers from them, in order. *)
Definition repository_files (glob : str → list str) (repo_path : str) : list str :=
  flat_map (fun ext => glob (repo_path ++ text "/**/*" ++ text ext))
    code_extensions.

Definition repository_chunks (glob : str → list str)
  (read_file : str → outcome str) (relpath : str → str → outcome str)
  (repo_path : str) : list str :=
  flat_map (fun f => (file_effect read_file relpath repo_path f).1.1)
    (repository_files glob repo_path).

Definition repository_metadata (glob : str → list str)
  (read_file : str → outcome str) (relpath : str → str → outcome str)
  (repo_path : str) : list metadata :=
  flat_map (fun f => (file_effect read_file relpath repo_path f).1.2)
    (repository_files glob repo_path).

(** ** config.py *)

Module Config.

(** What [yaml.safe_load] returns: scalars, lists and mappings.  Mappings
    are Python dicts, kept in insertion order; their keys are taken to be
    strings, and floats are left out. *)
#[warnings="-register-all"] Inductive yaml :=
| YNull
| YBool (b : bool)
| YInt (z : Z)
| YStr (s : str)
| YList (l : list yaml)
| YMap (m : list (str * yaml)).

Abbreviation dict := (list (str * yaml)).

(** [d.get(k)]: [None] when the key is missing. *)
Fixpoint get (k : str) (d : dict) : option yaml :=
  match d with
  | [] => None
  | (k', v) :: d' => if eqs k k' then Some v else get k d'
  end.

(** [d.setdefault(k, v)]: the dict afterwards. *)
Definition setdefault (k : str) (v : yaml) (d : dict) : dict :=
  match get k d with
  | Some _ => d
  | None => d ++ [(k, v)]
  end.

(** [d[k] = v] for a key that may be there already. *)
Fixpoint set (k : str) (v : yaml) (d : dict) : dict :=
  match d with
  | [] => [(k, v)]
  | (k', v') :: d' =>
      if eqs k k' then (k', v) :: d' else (k', v') :: set k v d'
  end.

(** What reading the file gives: [open] raised [FileNotFoundError], [open] or
    [yaml.safe_load] raised something else, or the document was loaded. *)
Inductive config_file :=
| Missing
| Unreadable
| Loaded (document : yaml).

Inductive config_exn :=
| LoadError         (* what [open] or [yaml.safe_load] raised *)
| AttributeError    (* [setdefault] on a value that is not a dict *)
| KeyError.

Inductive result :=
| Config (config : dict)
| ConfigRaise (e : config_exn).

(** [config[outer].setdefault(k, v)] *)
Definition nested_setdefault (outer k : str) (v : yaml) (config : dict) : result :=
  match get outer config with
  | None => ConfigRaise KeyError
  | Some (YMap inner) => Config (set outer (YMap (setdefault k v inner)) config)
  | Some _ => ConfigRaise AttributeError
  end.

Definition and_then (r : result) (f : dict → result) : result :=
  match r with
  | Config config => f config
  | ConfigRaise e => ConfigRaise e
  end.

Definition default_config : dict :=
  [ (text "qdrant",
     YMap [ (text "url", YStr (text "qdrant"));
            (text "port", YInt 6333);
            (text "collection_name", YStr (text "code_repository")) ]);
    (text "embedding_model", YStr (text "BAAI/bge-small-en-v1.5"));
    (text "repositories", YList [YStr (text "/repos")]) ].

(** [load_config()], given what reading [config_path] gives.  The handler
    of [Exception] logs and raises again. *)
Definition load_config (file : config_file) : result :=
  match file with
  | Missing => Config default_config
  | Unreadable => ConfigRaise LoadError
  | Loaded (YMap config) =>
      let config := setdefault (text "qdrant") (YMap []) config in
      and_then (nested_setdefault (text "qdrant") (text "url")
                  (YStr (text "qdrant")) config) (fun config =>
      and_then (nested_setdefault (text "qdrant") (text "port")
                  (YInt 6333) config) (fun config =>
      and_then (nested_setdefault (text "qdrant") (text "collection_name")
                  (YStr (text "code_repository")) config) (fun config =>
      let config :=
        setdefault (text "embedding_model")
          (YStr (text "BAAI/bge-small-en-v1.5")) config in
      let config :=
        setdefault (text "repositories") (YList [YStr (text "/repos")]) config in
      Config config)))
  | Loaded _ => ConfigRaise AttributeError
  end.

(** The three defaults of the [qdrant] section, applied in turn. *)
Definition qdrant_defaults (inner : dict) : dict :=
  setdefault (text "collection_name") (YStr (text "code_repository"))
    (setdefault (text "port") (YInt 6333)
       (setdefault (text "url") (YStr (text "qdrant")) inner)).

(** A document [load_config] can complete: a mapping whose [qdrant] entry,
    if there is one, is a mapping. *)
Definition well_formed (document : yaml) : bool :=
  match document with
  | YMap config =>
      match get (text "qdrant") config with
      | None | Some (YMap _) => true
      | Some _ => false
      end
  | _ => false
  end.

(** [config[a][b]] *)
Definition get2 (a b : str) (config : dict) : option yaml :=
  match get a config with
  | Some (YMap inner) => get b inner
  | _ => None
  end.

End Config.

(** ** main of code_indexer.py *)

Module Main.

(** What a call of the store's client can raise, as far as [main] tells
    them apart. *)
Inductive qexn :=
| ResponseHandlingException
| OtherException.

Inductive called (A : Type) :=
| Returned (a : A)
| Raised (e : qexn).
Arguments Returned {A} a.
Arguments Raised {A} e.

(** The log lines of [main] itself. *)
Inductive main_entry :=
| LogLoadingModel
| LogDimension (embedding_dim : nat)
| LogExistingDimension (existing_dim : nat)
| LogMismatch (existing_dim embedding_dim : nat)
| LogRecreating
| LogParseProblem (e : qexn)
| LogDeleteError (e : qexn)
| LogCheckError (e : qexn)
| LogNoCollection
| LogCreating (embedding_dim : nat)
| LogCreateError (e : qexn)
| LogIndexingComplete.

(** Which client calls fail in this run, and with what. *)
Record faults := {
  info_fault : option qexn;
  delete_fault : option qexn;
  create_fault : option qexn
}.

Section Store.

Variable glob : str → list str.
Variable read_file : str → outcome str.
Variable relpath : str → str → outcome str.
Variable embedding : Type.
Variable encode : list str → list embedding.

(** The store as far as the collection [collection_name] goes: whether the
    collection exists, its vector size, and the client state of the indexing
    loop (points, upsert calls, log of [process_repository]). *)
Record qdrant := {
  present : bool;
  vector_size : nat;
  contents : client embedding;
  main_log : list main_entry
}.

Definition logm (e : main_entry) (q : qdrant) : qdrant :=
  {| present := present q; vector_size := vector_size q;
     contents := contents q; main_log := main_log q ++ [e] |}.

Definition with_points (points : gmap nat (point embedding)) (c : client embedding)
  : client embedding :=
  {| collection := points; upserts := upserts embedding c; log := log embedding c |}.

(** [qdrant_client.get_collection(collection_name)] read down to
    [.config.params.vectors.size]. *)
Definition get_collection (f : faults) (q : qdrant) : called nat :=
  match info_fault f with
  | Some e => Raised e
  | None => if present q then Returned (vector_size q) else Raised OtherException
  end.

(** [qdrant_client.delete_collection(collection_name)]: the collection and
    its points are gone. *)
Definition delete_collection (f : faults) (q : qdrant) : called unit * qdrant :=
  match delete_fault f with
  | Some e => (Raised e, q)
  | None =>
      (Returned tt,
       {| present := false; vector_size := vector_size q;
          contents := with_points ∅ (contents q); main_log := main_log q |})
  end.

(** [qdrant_client.create_collection(...)]: an empty collection of the given
    vector size; the store refuses a name that exists. *)
Definition create_collection (f : faults) (size : nat) (q : qdrant)
  : called unit * qdrant :=
  match create_fault f with
  | Some e => (Raised e, q)
  | None =>
      if present q then (Raised OtherException, q)
      else
        (Returned tt,
         {| present := true; vector_size := size;
            contents := with_points ∅ (contents q); main_log := main_log q |})
  end.

(** The handler of [ResponseHandlingException]: delete, log a failure of
    that, and ask for the collection to be created. *)
Definition on_parse_problem (f : faults) (e : qexn) (q : qdrant) : bool * qdrant :=
  let q := logm LogRecreating (logm (LogParseProblem e) q) in
  match delete_collection f q with
  | (Returned _, q) => (true, q)
  | (Raised del_err, q) => (true, logm (LogDeleteError del_err) q)
  end.

(** The two handlers of the [try] around the check of the collection. *)
Definition on_check_error (f : faults) (e : qexn) (q : qdrant) : bool * qdrant :=
  match e with
  | ResponseHandlingException => on_parse_problem f e q
  | OtherException => (true, logm (LogCheckError e) q)
  end.

(** The check of the collection: [recreate_collection] and the store
    afterwards. *)
Definition check_collection (f : faults) (embedding_dim : nat) (q : qdrant)
  : bool * qdrant :=
  if present q then
    match get_collection f q with
    | Returned existing_dim =>
        let q := logm (LogExistingDimension existing_dim) q in
        if negb (existing_dim =? embedding_dim) then
          let q := logm LogRecreating (logm (LogMismatch existing_dim embedding_dim) q) in
          match delete_collection f q with
          | (Returned _, q) => (true, q)
          | (Raised e, q) => on_check_error f e q
          end
        else (false, q)
    | Raised e => on_check_error f e q
    end
  else (true, logm LogNoCollection q).

(** The loop over [config['repositories']] and the last log line. *)
Definition index_all (repositories : list str) (q : qdrant) : outcome unit * qdrant :=
  match index_repositories glob read_file relpath embedding encode repositories
          (contents q) with
  | (Ok _, c) =>
      (Ok tt,
       logm LogIndexingComplete
         {| present := present q; vector_size := vector_size q;
            contents := c; main_log := main_log q |})
  | (Raise e, c) =>
      (Raise e,
       {| present := present q; vector_size := vector_size q;
          contents := c; main_log := main_log q |})
  end.

(** [main()], from the point where the configuration and the embedding
    model are loaded: [embedding_dim] is [len(embedding_model.encode("Test"))]
    and [repositories] is [config['repositories']]. *)
Definition main (f : faults) (embedding_dim : nat) (repositories : list str)
  (q : qdrant) : outcome unit * qdrant :=
  let q := logm (LogDimension embedding_dim) (logm LogLoadingModel q) in
  let '(recreate_collection, q) := check_collection f embedding_dim q in
  if recreate_collection then
    let q := logm (LogCreating embedding_dim) q in
    match create_collection f embedding_dim q with
    | (Returned _, q) => index_all repositories q
    | (Raised e, q) => (Ok tt, logm (LogCreateError e) q)
    end
  else index_all repositories q.

End Store.

End Main.

(** Sample stores for [main]: a run without failing client calls, and a
    store whose collection has the given vector size and one point. *)
Module SampleStore.

Definition no_faults : Main.faults :=
  {| Main.info_fault := None; Main.delete_fault := None;
     Main.create_fault := None |}.

Definition failing_check : Main.faults :=
  {| Main.info_fault := Some Main.OtherException; Main.delete_fault := None;
     Main.create_fault := None |}.

Definition old_point : point nat :=
  {| id := 7; vector := 0; payload_text := text "old";
     payload := {| file_path := text "old.py"; repo_name := text "a";
                   chunk_id := 0; language := text "py" |} |}.

Definition store_of_size (size : nat) : Main.qdrant nat :=
  {| Main.present := true; Main.vector_size := size;
     Main.contents :=
       {| collection := {[ 7 := old_point ]}; upserts := []; log := [] |};
     Main.main_log := [] |}.

Definition main (f : Main.faults) (embedding_dim : nat) (q : Main.qdrant nat)
  : outcome unit * Main.qdrant nat :=
  Main.main Sample.glob Sample.read_file Sample.relpath nat Sample.encode
    f embedding_dim [text "/repos/a"] q.

End SampleStore.

(** ** Strings *)

Section StringFacts.

Lemma eqc_eq a b : eqc a b = true ↔ a = b.
Proof. apply Ascii.eqb_eq. Qed.

Lemma eqc_refl a : eqc a a = true.
Proof. by apply eqc_eq. Qed.

Lemma eqs_eq a b : eqs a b = true ↔ a = b.
Proof.
  revert b. induction a as [|x a IH]; intros [|y b]; simpl; try done.
  rewrite andb_true_iff, eqc_eq, IH. split; [intros [-> ->]; done|].
  intros [= -> ->]; done.
Qed.

Lemma slice_all {A} (s : list A) : slice s 0 (length s) = s.
Proof. unfold slice. rewrite Nat.sub_0_r. simpl. apply firstn_all. Qed.

Lemma slice_to_end {A} (s : list A) i : slice s i (length s) = skipn i s.
Proof.
  unfold slice. apply firstn_all2. rewrite length_skipn. lia.
Qed.

Lemma slice_from_0 {A} (s : list A) j : slice s 0 j = firstn j s.
Proof. unfold slice. by rewrite Nat.sub_0_r. Qed.

Lemma split_not_nil sep s : split sep s ≠ [].
Proof.
  destruct s as [|c s]; simpl; [done|].
  destruct (eqc c sep); [done|]. by destruct (split sep s).
Qed.

Lemma split_cons sep c s :
  split sep (c :: s) =
    if eqc c sep then [] :: split sep s
    else match split sep s with
         | l :: ls => (c :: l) :: ls
         | [] => [[c]]
         end.
Proof. done. Qed.

(** No line of [s.split('\n')] holds a newline. *)
Lemma split_no_sep sep s : Forall (fun l => sep ∉ l) (split sep s).
Proof.
  induction s as [|c s IH]; simpl.
  - repeat constructor. apply not_elem_of_nil.
  - destruct (eqc c sep) eqn:E.
    + constructor; [apply not_elem_of_nil | done].
    + destruct (split sep s) as [|l ls] eqn:Es; [by apply split_not_nil in Es|].
      inversion IH; subst. constructor; [|done].
      intros [->|?]%elem_of_cons; [|done].
      by rewrite eqc_refl in E.
Qed.

Lemma join_cons sep p q ps : join sep (p :: q :: ps) = p ++ sep ++ join sep (q :: ps).
Proof. done. Qed.

(** ['\n'.join(s.split('\n')) == s] *)
Lemma join_split sep s : join [sep] (split sep s) = s.
Proof.
  induction s as [|c s IH]; simpl; [done|].
  destruct (eqc c sep) eqn:E.
  - apply eqc_eq in E as ->.
    destruct (split sep s) as [|l ls] eqn:Es; [by apply split_not_nil in Es|].
    by rewrite join_cons, IH.
  - destruct (split sep s) as [|l ls] eqn:Es; [by apply split_not_nil in Es|].
    destruct ls as [|l' ls]; simpl in *; by rewrite <- IH.
Qed.

(** Splitting a line without separator gives the line. *)
Lemma split_line sep l : sep ∉ l → split sep l = [l].
Proof.
  induction l as [|c l IH]; intros H; simpl; [done|].
  destruct (eqc c sep) eqn:E.
  - apply eqc_eq in E as ->. destruct H. by left.
  - rewrite IH; [done|]. intros ?. apply H. by right.
Qed.

Lemma split_app_sep sep l rest :
  sep ∉ l → split sep (l ++ sep :: rest) = l :: split sep rest.
Proof.
  induction l as [|c l IH]; intros H; simpl.
  - by rewrite eqc_refl.
  - destruct (eqc c sep) eqn:E.
    + apply eqc_eq in E as ->. destruct H. by left.
    + rewrite IH; [done|]. intros ?. apply H. by right.
Qed.

(** ['\n'.join(ls).split('\n') == ls] for lines without newline. *)
Lemma split_join sep ls :
  ls ≠ [] → Forall (fun l => sep ∉ l) ls → split sep (join [sep] ls) = ls.
Proof.
  induction ls as [|l ls IH]; [done|]. intros _ H.
  inversion H as [|?? Hl Hls]; subst.
  destruct ls as [|l' ls].
  - simpl. by apply split_line.
  - rewrite join_cons. simpl. rewrite split_app_sep by done.
    f_equal. by apply IH.
Qed.

Lemma lstrip_nil s : lstrip s = [] ↔ has_text s = false.
Proof.
  unfold has_text. induction s as [|c s IH]; simpl; [done|].
  destruct (is_space c); simpl; [done|]. split; done.
Qed.

Lemma has_text_elem s : has_text s = true ↔ ∃ c, c ∈ s ∧ is_space c = false.
Proof.
  unfold has_text. rewrite existsb_exists. split.
  - intros (c & Hin & Hc). exists c. rewrite list_elem_of_In.
    split; [done|]. by destruct (is_space c).
  - intros (c & Hin & Hc). exists c. rewrite <- list_elem_of_In.
    split; [done|]. by rewrite Hc.
Qed.

Lemma lstrip_suffix s : lstrip s `suffix_of` s.
Proof.
  induction s as [|c s IH]; simpl; [done|].
  destruct (is_space c); [by apply suffix_cons_r | done].
Qed.

Lemma lstrip_has_text s : has_text (lstrip s) = has_text s.
Proof.
  unfold has_text. induction s as [|c s IH]; simpl; [done|].
  destruct (is_space c) eqn:E; simpl; [done|]. by rewrite E.
Qed.

Lemma has_text_rev s : has_text (rev s) = has_text s.
Proof.
  apply eq_true_iff_eq. unfold has_text. rewrite !existsb_exists.
  split; intros (c & Hin & Hc); exists c; split; try done.
  - by apply in_rev.
  - by apply in_rev in Hin.
Qed.

(** [bool(s.strip())] is: some character of [s] is not white space. *)
Lemma truthy_strip s : truthy (strip s) = has_text s.
Proof.
  unfold strip, rstrip.
  destruct (has_text s) eqn:E.
  - assert (has_text (rev (lstrip (rev (lstrip s)))) = true) as H.
    { by rewrite has_text_rev, lstrip_has_text, has_text_rev, lstrip_has_text. }
    by destruct (rev (lstrip (rev (lstrip s)))).
  - apply lstrip_nil in E. by rewrite E.
Qed.

Lemma has_text_app a b : has_text (a ++ b) = has_text a || has_text b.
Proof. unfold has_text. apply existsb_app. Qed.

Lemma is_infix_concat line c (chunks : list str) :
  c ∈ chunks → is_infix line c → is_infix line (concat chunks).
Proof.
  intros Hin (pre & post & ->).
  apply list_elem_of_split in Hin as (l1 & l2 & ->).
  exists (concat l1 ++ pre), (post ++ concat l2).
  rewrite concat_app. simpl. by rewrite <- !app_assoc.
Qed.

Lemma is_infix_join line (ls : list str) sep :
  line ∈ ls → is_infix line (join sep ls).
Proof.
  induction ls as [|l ls IH]; [by intros ?%elem_of_nil|].
  intros [->|Hin]%elem_of_cons.
  - destruct ls as [|l' ls].
    + exists [], []. simpl. by rewrite app_nil_r.
    + exists [], (sep ++ join sep (l' :: ls)). by rewrite join_cons.
  - destruct ls as [|l' ls]; [by apply elem_of_nil in Hin|].
    destruct (IH Hin) as (pre & post & E).
    exists (l ++ sep ++ pre), post. rewrite join_cons, E.
    by rewrite <- !app_assoc.
Qed.

End StringFacts.

(** ** The matcher consumes what the pattern requires *)

Section MatcherFacts.

Lemma rep_loop_suffix body greedy k :
  (∀ prev s k' e, body prev s k' = Some e →
     ∃ p s', k' p s' = Some e ∧ s' `suffix_of` s) →
  ∀ fuel prev s e, rep_loop body greedy k fuel prev s = Some e →
     ∃ p s', k p s' = Some e ∧ s' `suffix_of` s.
Proof.
  intros Hbody. induction fuel as [|f IH]; intros prev s e H; simpl in H.
  - by exists prev, s.
  - assert (∀ x, body prev s
               (fun p s' => if length s' <? length s
                            then rep_loop body greedy k f p s' else None) = Some x →
               ∃ p s', k p s' = Some x ∧ s' `suffix_of` s) as Hmore.
    { intros x Hx. apply Hbody in Hx as (p1 & s1 & Hx & Hs1).
      destruct (length s1 <? length s); [|done].
      apply IH in Hx as (p & s' & Hk & Hs'). exists p, s'. split; [done|].
      by etrans. }
    destruct greedy.
    + destruct (body prev s _) as [y|] eqn:Ey.
      * injection H as <-. by apply Hmore.
      * by exists prev, s.
    + destruct (k prev s) as [y|] eqn:Ey.
      * injection H as <-. by exists prev, s.
      * by apply Hmore.
Qed.

(** A successful match hands its continuation a suffix of the subject. *)
Lemma rmatch_suffix r :
  ∀ prev s k e, rmatch r prev s k = Some e →
    ∃ p s', k p s' = Some e ∧ s' `suffix_of` s.
Proof.
  induction r as [|cs|r1 IH1 r2 IH2|r1 IH1 r2 IH2|g r IH| | |r IH];
    intros prev s k e H; simpl in H.
  - by exists prev, s.
  - destruct s as [|c t]; [done|]. destruct (cset_mem cs c); [|done].
    exists (Some c), t. split; [done|]. by apply suffix_cons_r.
  - apply IH1 in H as (p1 & s1 & H & Hs1).
    apply IH2 in H as (p2 & s2 & H & Hs2).
    exists p2, s2. split; [done|]. by etrans.
  - destruct (rmatch r1 prev s k) as [y|] eqn:Ey.
    + injection H as <-. by apply IH1 in Ey.
    + by apply IH2 in H.
  - by apply (rep_loop_suffix _ _ _ IH) in H.
  - destruct (at_bol prev); [|done]. by exists prev, s.
  - destruct (at_eos s); [|done]. by exists prev, s.
  - destruct (rmatch r prev s _); [|done]. by exists prev, s.
Qed.

Lemma rmatch_requires c r :
  requires c r = true →
  ∀ prev s k e, rmatch r prev s k = Some e → c ∈ s.
Proof.
  induction r as [|cs|r1 IH1 r2 IH2|r1 IH1 r2 IH2|g r IH| | |r IH];
    simpl; intros Hreq prev s k e H; try done.
  - destruct cs; try done. destruct s as [|x t]; [done|].
    simpl in H. destruct (eqc x c0) eqn:E; [|done].
    apply eqc_eq in E as ->. apply eqc_eq in Hreq as ->. by left.
  - apply orb_true_iff in Hreq as [Hreq|Hreq].
    + by eapply IH1.
    + apply rmatch_suffix in H as (p1 & s1 & H & [pre ->]).
      apply elem_of_app. right. by eapply IH2.
  - apply andb_true_iff in Hreq as [Hreq1 Hreq2].
    destruct (rmatch r1 prev s k) as [y|] eqn:Ey.
    + by eapply IH1.
    + by eapply IH2.
Qed.

Lemma search_requires c r :
  requires c r = true →
  ∀ s must_advance prev i m, search r must_advance prev s i = Some m → c ∈ s.
Proof.
  intros Hreq. induction s as [|x t IH]; intros ma prev i m H; simpl in H.
  - destruct (match_here r ma prev []) as [[p s']|] eqn:E; [|done].
    by eapply rmatch_requires.
  - destruct (match_here r ma prev (x :: t)) as [[p s']|] eqn:E.
    + by eapply rmatch_requires.
    + right. by eapply IH.
Qed.

(** A text without a character the pattern requires has no match. *)
Lemma finditer_requires c r s :
  requires c r = true → c ∉ s → finditer r s = [].
Proof.
  intros Hreq Hc. unfold finditer. cbn [scan].
  destruct (search r false None s 0) as [m|] eqn:E; [|done].
  destruct Hc. by eapply search_requires.
Qed.

Lemma finditer_text_nil r s : finditer r s = [] → finditer_text r s = [].
Proof. unfold finditer_text. by intros ->. Qed.

Lemma last_char_app prev m1 m2 :
  last_char (last_char prev m1) m2 = last_char prev (m1 ++ m2).
Proof. unfold last_char. rewrite last_app. by destruct (last m2). Qed.

Lemma rep_loop_tracks body greedy k :
  (∀ prev s k' e, body prev s k' = Some e →
     ∃ mid s', s = mid ++ s' ∧ k' (last_char prev mid) s' = Some e) →
  ∀ fuel prev s e, rep_loop body greedy k fuel prev s = Some e →
     ∃ mid s', s = mid ++ s' ∧ k (last_char prev mid) s' = Some e.
Proof.
  intros Hbody. induction fuel as [|f IH]; intros prev s e H; simpl in H.
  - by exists [], s.
  - assert (∀ x, body prev s
               (fun p s' => if length s' <? length s
                            then rep_loop body greedy k f p s' else None) = Some x →
               ∃ mid s', s = mid ++ s' ∧ k (last_char prev mid) s' = Some x)
      as Hmore.
    { intros x Hx. apply Hbody in Hx as (m1 & s1 & -> & Hx).
      destruct (length s1 <? length (m1 ++ s1)); [|done].
      apply IH in Hx as (m2 & s2 & -> & Hk). exists (m1 ++ m2), s2.
      split; [by rewrite app_assoc|]. by rewrite <- last_char_app. }
    destruct greedy.
    + destruct (body prev s _) as [y|] eqn:Ey.
      * injection H as <-. by apply Hmore.
      * by exists [], s.
    + destruct (k prev s) as [y|] eqn:Ey.
      * injection H as <-. by exists [], s.
      * by apply Hmore.
Qed.

(** A successful match consumes a prefix [mid] of the subject and hands
    its continuation the rest, with the last character consumed before it. *)
Lemma rmatch_tracks r :
  ∀ prev s k e, rmatch r prev s k = Some e →
    ∃ mid s', s = mid ++ s' ∧ k (last_char prev mid) s' = Some e
              ∧ (consumes r = true → mid ≠ []).
Proof.
  induction r as [|cs|r1 IH1 r2 IH2|r1 IH1 r2 IH2|g r IH| | |r IH];
    intros prev s k e H; simpl in H.
  - by exists [], s.
  - destruct s as [|c t]; [done|]. destruct (cset_mem cs c); [|done].
    by exists [c], t.
  - apply IH1 in H as (m1 & s1 & -> & H & Hc1).
    apply IH2 in H as (m2 & s2 & -> & H & Hc2).
    exists (m1 ++ m2), s2. split; [by rewrite app_assoc|].
    rewrite <- last_char_app. split; [done|].
    simpl. intros [Hc|Hc]%orb_true_iff Hnil; apply app_eq_nil in Hnil as [? ?].
    + by apply Hc1.
    + by apply Hc2.
  - destruct (rmatch r1 prev s k) as [y|] eqn:Ey.
    + injection H as <-. apply IH1 in Ey as (mid & s' & ? & ? & Hc).
      exists mid, s'. split; [done|]. split; [done|].
      simpl. intros [? ?]%andb_true_iff. by apply Hc.
    + apply IH2 in H as (mid & s' & ? & ? & Hc).
      exists mid, s'. split; [done|]. split; [done|].
      simpl. intros [? ?]%andb_true_iff. by apply Hc.
  - apply (rep_loop_tracks (rmatch r) g k) in H as (mid & s' & ? & ?).
    + by exists mid, s'.
    + intros p0 s0 k0 e0 H0. apply IH in H0 as (mid & s' & ? & ? & _).
      by exists mid, s'.
  - destruct (at_bol prev); [|done]. by exists [], s.
  - destruct (at_eos s); [|done]. by exists [], s.
  - destruct (rmatch r prev s _); [|done]. by exists [], s.
Qed.

Lemma is_infix_app_l (pre line s : str) : is_infix line s → is_infix line (pre ++ s).
Proof. intros (a & b & ->). exists (pre ++ a), b. by rewrite <- app_assoc. Qed.

(** [^] and a closing brace match only at the start of a line, before a
    closing brace. *)
Lemma brace_line_sound r prev s k e :
  brace_line r = true → rmatch r prev s k = Some e →
  at_bol prev = true ∧ ∃ t, s = "}"%char :: t.
Proof.
  destruct r as [| |r1 r2| | | | |]; try done.
  destruct r1; try done.
  destruct r2 as [| |r21 r22| | | | |]; try done.
  destruct r21 as [|cs| | | | | |]; try done.
  destruct cs as [c| | | | |]; try done.
  simpl. intros Hc H. destruct (at_bol prev); [|done]. split; [done|].
  destruct s as [|x t]; [done|]. destruct (eqc x c) eqn:E; [|done].
  apply eqc_eq in E as ->. apply eqc_eq in Hc as ->. by exists t.
Qed.

(** The step shared by the next two lemmas: after [mid], a closing brace
    at the start of a line. *)
Lemma brace_after (prev : option ascii) (mid t : str) :
  at_bol (last_char prev mid) = true →
  is_infix line_closing_brace (mid ++ "}"%char :: t)
  ∨ (mid = [] ∧ at_bol prev = true).
Proof.
  destruct mid as [|x mid _] using rev_ind; [by right|].
  unfold last_char. rewrite last_snoc. simpl. intros ->%eqc_eq.
  left. exists mid, t. by rewrite <- app_assoc.
Qed.

Lemma closes_on_brace_line_sound r :
  closes_on_brace_line r = true →
  ∀ prev s k e, rmatch r prev s k = Some e →
    is_infix line_closing_brace s ∨ (at_bol prev = true ∧ ∃ t, s = "}"%char :: t).
Proof.
  induction r as [| |r1 _ r2 IH2| | | | |]; try done.
  cbn [closes_on_brace_line].
  intros [Hb|Hc]%orb_true_iff prev s k e H; cbn [rmatch] in H.
  - right. by eapply brace_line_sound.
  - apply rmatch_tracks in H as (mid & s1 & -> & H & _).
    apply (IH2 Hc) in H as [Hin|[Hbol [t ->]]].
    + left. by apply is_infix_app_l.
    + destruct (brace_after prev mid t Hbol) as [Hin|[-> Hprev]]; [by left|].
      right. split; [done|]. by exists t.
Qed.

(** What a pattern that consumes a character and then closes on [^] and a
    closing brace matches holds a line that starts with a closing brace. *)
Lemma ends_on_brace_line_sound r :
  ends_on_brace_line r = true →
  ∀ prev s k e, rmatch r prev s k = Some e → is_infix line_closing_brace s.
Proof.
  destruct r as [| |r1 r2| | | | |]; try done. cbn [ends_on_brace_line].
  intros [Hc1 Hc2]%andb_true_iff prev s k e H. cbn [rmatch] in H.
  apply rmatch_tracks in H as (mid & s1 & -> & H & Hne).
  apply (closes_on_brace_line_sound _ Hc2) in H as [Hin|[Hbol [t ->]]].
  - by apply is_infix_app_l.
  - destruct (brace_after prev mid t Hbol) as [Hin|[-> _]]; [done|].
    by destruct Hne.
Qed.

Lemma search_on_brace_line r :
  ends_on_brace_line r = true →
  ∀ s must_advance prev i m, search r must_advance prev s i = Some m →
    is_infix line_closing_brace s.
Proof.
  intros Hr. induction s as [|x t IH]; intros ma prev i m H; simpl in H.
  - destruct (match_here r ma prev []) as [[p s']|] eqn:E; [|done].
    by eapply ends_on_brace_line_sound.
  - destruct (match_here r ma prev (x :: t)) as [[p s']|] eqn:E.
    + by eapply ends_on_brace_line_sound.
    + apply (is_infix_app_l [x]). by eapply IH.
Qed.

(** A text in which no line after the first starts with a closing brace
    has no match of such a pattern. *)
Lemma finditer_without_brace_line r s :
  ends_on_brace_line r = true → ¬ is_infix line_closing_brace s →
  finditer r s = [].
Proof.
  intros Hr Hs. unfold finditer. cbn [scan].
  destruct (search r false None s 0) as [m|] eqn:E; [|done].
  destruct Hs. by eapply search_on_brace_line.
Qed.

End MatcherFacts.

(** ** The segmenter *)

Section Segmenter.

Lemma whole_file_if_few_not_nil chunks content :
  whole_file_if_few chunks content ≠ [].
Proof.
  unfold whole_file_if_few. destruct (length chunks <=? 1) eqn:E; [done|].
  apply Nat.leb_gt in E. destruct chunks; simpl in E; [lia | done].
Qed.

Lemma chunk_python_file_not_nil content : Python.chunk_python_file content ≠ [].
Proof.
  unfold Python.chunk_python_file.
  destruct (Python.extract _ [] content) as [chunks1 content1].
  destruct (Python.extract _ chunks1 content1) as [chunks2 content2].
  match goal with |- (if length ?c <=? 1 then _ else _) ≠ _ =>
    apply (whole_file_if_few_not_nil c content2) end.
Qed.

Lemma chunk_c_style_file_not_nil content : CStyle.chunk_c_style_file content ≠ [].
Proof. apply whole_file_if_few_not_nil. Qed.

Lemma chunk_javascript_file_not_nil content :
  JavaScript.chunk_javascript_file content ≠ [].
Proof. apply whole_file_if_few_not_nil. Qed.

Lemma uncovered_ranges_no_class content :
  uncovered_ranges content [] = [(0, length content)].
Proof. done. Qed.

(** With one class span, the outer loop runs once on [(0, len(content))]. *)
Lemma uncovered_ranges_one_class content s e :
  uncovered_ranges content [(s, e)] =
    (if 0 <? s then [(0, s)] else [])
    ++ (if e <? length content then [(e, length content)] else []).
Proof. unfold uncovered_ranges. simpl. by rewrite app_nil_r. Qed.

(** With at most one class the ranges are as the comment in the source
    says: in order, disjoint, inside the content and clear of the class. *)
Lemma uncovered_ranges_one_class_ok content s e :
  s ≤ e ≤ length content →
  sorted_disjoint (uncovered_ranges content [(s, e)]) = true
  ∧ within (length content) (uncovered_ranges content [(s, e)]) = true
  ∧ avoids (uncovered_ranges content [(s, e)]) [(s, e)] = true.
Proof.
  intros [Hse Hen]. rewrite uncovered_ranges_one_class.
  destruct (0 <? s) eqn:E0; destruct (e <? length content) eqn:E1;
    unfold within, avoids, overlaps; simpl; rewrite ?andb_true_r;
    repeat split; try done;
    rewrite ?andb_true_iff, ?negb_true_iff, ?andb_false_iff,
      ?Nat.leb_le, ?Nat.ltb_ge, ?Nat.ltb_lt in *; lia.
Qed.

Lemma extract_uncovered_whole patterns content :
  extract_uncovered patterns content [(0, length content)] =
    flat_map (fun pattern => finditer_text pattern content) patterns.
Proof. unfold extract_uncovered. simpl. by rewrite slice_all, app_nil_r. Qed.

Lemma flat_map_nil {A B} (f : A → list B) l :
  (∀ x, x ∈ l → f x = []) → flat_map f l = [].
Proof.
  induction l as [|x l IH]; intros H; simpl; [done|].
  rewrite H by (by left). apply IH. intros y Hy. apply H. by right.
Qed.

(** No pattern that requires [c] matches inside ranges free of [c]. *)
Lemma extract_uncovered_requires c patterns content uncovered :
  (∀ p, p ∈ patterns → requires c p = true) →
  (∀ i j, (i, j) ∈ uncovered → c ∉ slice content i j) →
  extract_uncovered patterns content uncovered = [].
Proof.
  intros Hp Hu. unfold extract_uncovered.
  apply flat_map_nil. intros [i j] Hij.
  apply flat_map_nil. intros p Hin.
  apply finditer_text_nil, (finditer_requires c); [by apply Hp | by apply Hu].
Qed.

(** C6: when the class, function/method and import patterns of a family
    find no match in the content, the family's function returns exactly the
    one-element list holding the unmodified content.  (The python family
    has no import pattern; the method and function patterns are run on the
    whole content because no class span was subtracted.) *)
Theorem no_structural_match_returns_whole_content (content : str) :
  (finditer Python.class_pattern content = [] →
   finditer Python.function_pattern content = [] →
   Python.chunk_python_file content = [content])
  ∧ (finditer CStyle.class_pattern content = [] →
     finditer CStyle.method_pattern content = [] →
     finditer CStyle.import_pattern content = [] →
     CStyle.chunk_c_style_file content = [content])
  ∧ (finditer JavaScript.class_pattern content = [] →
     (∀ p, p ∈ JavaScript.function_patterns → finditer p content = []) →
     finditer JavaScript.import_pattern content = [] →
     JavaScript.chunk_javascript_file content = [content]).
Proof.
  split; [|split].
  - intros Hc Hf. unfold Python.chunk_python_file, finditer_text.
    rewrite Hc. simpl. rewrite Hf. simpl.
    by destruct (negb (length (Python.module_level (split nl content) []) =? 0)).
  - intros Hc Hm Hi.
    unfold CStyle.chunk_c_style_file, CStyle.class_chunks, CStyle.method_chunks,
      CStyle.class_positions.
    rewrite Hc, uncovered_ranges_no_class, extract_uncovered_whole.
    unfold finditer_text. simpl. by rewrite Hc, Hm, Hi.
  - intros Hc Hf Hi.
    unfold JavaScript.chunk_javascript_file, JavaScript.class_chunks,
      JavaScript.function_chunks, JavaScript.class_positions.
    rewrite Hc, uncovered_ranges_no_class, extract_uncovered_whole.
    rewrite flat_map_nil by (intros p Hp; by apply finditer_text_nil, Hf).
    unfold finditer_text. by rewrite Hc, Hi.
Qed.

Lemma no_structural_match_witness :
  let content := unlines ["x = 1"; "y = x + 2"] in
  Python.chunk_python_file content = [content]
  ∧ CStyle.chunk_c_style_file content = [content]
  ∧ JavaScript.chunk_javascript_file content = [content].
Proof.
  intros content.
  destruct (no_structural_match_returns_whole_content content) as (Hp & Hc & Hj).
  split; [|split].
  - apply Hp; vm_compute; reflexivity.
  - apply Hc; vm_compute; reflexivity.
  - apply Hj; [vm_compute; reflexivity | | vm_compute; reflexivity].
    intros p Hp'. unfold JavaScript.function_patterns in Hp'.
    repeat (apply elem_of_cons in Hp' as [->|Hp']; [vm_compute; reflexivity|]).
    by apply elem_of_nil in Hp'.
Defined.

(** C10 (the code departs from the claim): with two classes after a first
    line, the second round of the subtraction loop stretches the range left
    of the first class up to the second class.  The ranges it leaves overlap
    each other and cover the first class span, in [chunk_c_style_file] and
    in [chunk_javascript_file] alike. *)
Theorem uncovered_ranges_reach_into_the_first_class :
  let content := unlines ["x"; "class A {"; "}"; "y"; "class B {"; "}"; "z"] in
  (CStyle.class_positions content = [(1, 13); (15, 27)]
   ∧ uncovered_ranges content (CStyle.class_positions content)
     = [(0, 15); (13, 15); (27, 29)]
   ∧ sorted_disjoint (uncovered_ranges content (CStyle.class_positions content)) = false
   ∧ avoids (uncovered_ranges content (CStyle.class_positions content))
       (CStyle.class_positions content) = false)
  ∧ (JavaScript.class_positions content = [(2, 13); (16, 27)]
     ∧ uncovered_ranges content (JavaScript.class_positions content)
       = [(0, 16); (13, 16); (27, 29)]
     ∧ sorted_disjoint (uncovered_ranges content (JavaScript.class_positions content)) = false
     ∧ avoids (uncovered_ranges content (JavaScript.class_positions content))
         (JavaScript.class_positions content) = false).
Proof. vm_compute. repeat split; reflexivity. Qed.

(** What the overlap costs: the method of the first class is matched again
    in the stretched range and appended as a chunk of its own. *)
Lemma method_of_first_class_extracted_again :
  let content :=
    unlines ["x"; "class A {"; "    public void f() {"; "    }"; "}";
             "class B {"; "}"] in
  CStyle.method_chunks content = [unlines ["public void f() {"; "    }"; "}"]].
Proof. vm_compute. reflexivity. Qed.

(** C2 (the code departs from the claim): for a file that is one class and
    nothing else, the class text is found, removed from [content], and the
    fallback for few chunks returns what is left of [content], not the file:
    the one segment is the empty string, or the final newline. *)
Theorem single_class_file_returns_the_residue :
  let cls := unlines ["class A:"; "    x = 1"] in
  finditer_text Python.class_pattern cls = [cls]
  ∧ Python.chunk_python_file cls = [[]]
  ∧ Python.chunk_python_file (cls ++ [nl]) = [[nl]].
Proof. vm_compute. repeat split; reflexivity. Qed.

(** The lines of a window of two lines. *)
Lemma split_join2 a b :
  nl ∉ a → nl ∉ b → split nl (join [nl] [a; b]) = [a; b].
Proof. intros Ha Hb. apply split_join; [done|]. by repeat constructor. Qed.

Lemma has_text_join2 a b : has_text (join [nl] [a; b]) = has_text (a ++ b).
Proof.
  simpl. rewrite !has_text_app.
  change (has_text (nl :: b)) with (has_text ([nl] ++ b)).
  by rewrite has_text_app.
Qed.

(** C9: [chunk_by_lines] with [max_lines=2] on an input of five lines whose
    windows (lines 1-2, 3-4 and 5) each hold a character that is not white
    space returns exactly three chunks, each of at most two lines and none
    empty after [strip]. *)
Theorem chunk_by_lines_five_lines_by_two (content l0 l1 l2 l3 l4 : str) :
  split nl content = [l0; l1; l2; l3; l4] →
  has_text (l0 ++ l1) = true →
  has_text (l2 ++ l3) = true →
  has_text l4 = true →
  ∃ c0 c1 c2,
    ByLines.chunk_by_lines content 2 = Ok [c0; c1; c2]
    ∧ Forall (fun c => length (split nl c) ≤ 2 ∧ strip c ≠ []) [c0; c1; c2].
Proof.
  intros Hs H01 H23 H4.
  pose proof (split_no_sep nl content) as Hnl. rewrite Hs in Hnl.
  apply Forall_cons in Hnl as [N0 Hnl]. apply Forall_cons in Hnl as [N1 Hnl].
  apply Forall_cons in Hnl as [N2 Hnl]. apply Forall_cons in Hnl as [N3 Hnl].
  apply Forall_cons in Hnl as [N4 _].
  exists (join [nl] [l0; l1]), (join [nl] [l2; l3]), l4. split.
  - unfold ByLines.chunk_by_lines. rewrite Hs.
    change (ByLines.range0 (length [l0; l1; l2; l3; l4]) 2) with (Ok [0; 2; 4]).
    change (Z.to_nat 2) with 2. cbn [flat_map]. unfold ByLines.window.
    change (slice [l0; l1; l2; l3; l4] 0 (0 + 2)) with [l0; l1].
    change (slice [l0; l1; l2; l3; l4] 2 (2 + 2)) with [l2; l3].
    change (slice [l0; l1; l2; l3; l4] 4 (4 + 2)) with [l4].
    rewrite !truthy_strip, !has_text_join2, H01, H23.
    change (join [nl] [l4]) with l4. by rewrite H4.
  - assert (∀ c, has_text c = true → strip c ≠ []) as Hstrip.
    { intros c Hc E. rewrite <- truthy_strip in Hc. by rewrite E in Hc. }
    apply Forall_cons_2; [split|apply Forall_cons_2; [split|apply Forall_cons_2;
      [split|apply Forall_nil_2]]].
    + rewrite split_join2 by done. simpl. lia.
    + apply Hstrip. by rewrite has_text_join2.
    + rewrite split_join2 by done. simpl. lia.
    + apply Hstrip. by rewrite has_text_join2.
    + rewrite split_line by done. simpl. lia.
    + by apply Hstrip.
Qed.

Lemma chunk_by_lines_five_lines_witness :
  ∃ c0 c1 c2,
    ByLines.chunk_by_lines (unlines ["a"; ""; "  "; "b"; "c"]) 2 = Ok [c0; c1; c2]
    ∧ Forall (fun c => length (split nl c) ≤ 2 ∧ strip c ≠ []) [c0; c1; c2].
Proof.
  apply (chunk_by_lines_five_lines_by_two _ (text "a") (text "") (text "  ")
           (text "b") (text "c")); reflexivity.
Defined.

(** *** The fallback windows *)

Lemma has_text_join ls : has_text (join [nl] ls) = existsb has_text ls.
Proof.
  induction ls as [|l ls IH]; [done|].
  destruct ls as [|l' ls].
  - simpl. by rewrite orb_false_r.
  - rewrite join_cons, has_text_app.
    change (has_text ([nl] ++ join [nl] (l' :: ls)))
      with (has_text (join [nl] (l' :: ls))).
    by rewrite IH.
Qed.

Lemma has_text_lines content :
  has_text content = existsb has_text (split nl content).
Proof. by rewrite <- has_text_join, join_split. Qed.

(** The window starts reach every line index. *)
Lemma range_up_covers step idx stop :
  0 < step →
  ∀ fuel i, i ≤ idx < stop → stop ≤ i + fuel * step →
    ∃ j, j ∈ ByLines.range_up fuel i stop step ∧ j ≤ idx < j + step.
Proof.
  intros Hstep. induction fuel as [|f IH]; intros i Hi Hfuel; simpl.
  - lia.
  - destruct (i <? stop) eqn:E; [|apply Nat.ltb_ge in E; lia].
    destruct (decide (idx < i + step)) as [Hlt|Hge].
    + exists i. split; [by left | lia].
    + destruct (IH (i + step)) as (j & Hj & Hidx); [lia | lia |].
      exists j. split; [by right | done].
Qed.

Lemma elem_of_slice {A} (l : list A) i j idx x :
  l !! idx = Some x → i ≤ idx < j → x ∈ slice l i j.
Proof.
  intros Hx Hidx. unfold slice. apply elem_of_take. exists (idx - i).
  rewrite lookup_drop. replace (i + (idx - i)) with idx by lia.
  split; [done | lia].
Qed.

Lemma slice_subseteq {A} (l : list A) i j x : x ∈ slice l i j → x ∈ l.
Proof.
  unfold slice. intros (k & Hk & _)%elem_of_take.
  rewrite lookup_drop in Hk. by eapply list_elem_of_lookup_2.
Qed.

Lemma elem_of_window lines m i c :
  c ∈ ByLines.window lines m i ↔
    c = join [nl] (slice lines i (i + m)) ∧ has_text c = true.
Proof.
  unfold ByLines.window. rewrite truthy_strip.
  destruct (has_text (join [nl] (slice lines i (i + m)))) eqn:E.
  - rewrite list_elem_of_singleton. split; [by intros -> | by intros [-> _]].
  - split; [by intros ?%elem_of_nil | intros [-> H]; congruence].
Qed.

(** Every line with text lies in a returned window. *)
Lemma chunk_by_lines_covers content (max_lines : positive) :
  ∃ chunks,
    ByLines.chunk_by_lines content (Zpos max_lines) = Ok chunks
    ∧ ∀ line, line ∈ split nl content → has_text line = true →
        ∃ c, c ∈ chunks ∧ is_infix line c.
Proof.
  unfold ByLines.chunk_by_lines. simpl. eexists. split; [done|].
  intros line Hline Htext.
  apply list_elem_of_lookup in Hline as [idx Hidx].
  set (lines := split nl content) in *.
  destruct (range_up_covers (Pos.to_nat max_lines) idx (length lines)) with
    (fuel := length lines) (i := 0) as (j & Hj & Hrange); [lia | |nia|].
  { split; [lia|]. by eapply lookup_lt_Some. }
  assert (line ∈ slice lines j (j + Pos.to_nat max_lines)) as Hin
    by (by eapply elem_of_slice).
  exists (join [nl] (slice lines j (j + Pos.to_nat max_lines))). split.
  - apply list_elem_of_In, in_flat_map. exists j.
    rewrite <- !list_elem_of_In. split; [done|].
    apply elem_of_window. split; [done|].
    rewrite has_text_join. apply existsb_exists. exists line.
    by rewrite <- list_elem_of_In.
  - by apply is_infix_join.
Qed.

(** A returned window holds text of the input. *)
Lemma chunk_by_lines_text content max_lines chunks :
  ByLines.chunk_by_lines content max_lines = Ok chunks →
  chunks ≠ [] → has_text content = true.
Proof.
  unfold ByLines.chunk_by_lines.
  destruct (ByLines.range0 _ max_lines) as [starts|]; [|done].
  intros [= <-] Hne.
  destruct (flat_map _ starts) as [|c rest] eqn:E; [done|].
  assert (c ∈ flat_map (ByLines.window (split nl content) (Z.to_nat max_lines)) starts)
    as Hc by (rewrite E; by left).
  apply list_elem_of_In, in_flat_map in Hc as (j & _ & Hc).
  apply list_elem_of_In, elem_of_window in Hc as [-> Hc].
  rewrite has_text_join in Hc. apply existsb_exists in Hc as (l & Hl & Hc).
  rewrite has_text_lines. apply existsb_exists. exists l. split; [|done].
  by apply list_elem_of_In, slice_subseteq, list_elem_of_In in Hl.
Qed.

Lemma chunk_by_lines_not_nil content (max_lines : positive) :
  has_text content = true →
  ∃ chunks, ByLines.chunk_by_lines content (Zpos max_lines) = Ok chunks ∧ chunks ≠ [].
Proof.
  intros Htext.
  destruct (chunk_by_lines_covers content max_lines) as (chunks & Hc & Hcov).
  exists chunks. split; [done|].
  rewrite has_text_lines in Htext.
  apply existsb_exists in Htext as (l & Hl & Htext).
  destruct (Hcov l) as (c & Hin & _); [by apply list_elem_of_In | done |].
  intros ->. by apply elem_of_nil in Hin.
Qed.

(** [chunk_code_file] never raises: its one call of [chunk_by_lines] uses
    the default window of 100 lines. *)
Lemma chunk_code_file_ok content file_path :
  ∃ chunks, chunk_code_file content file_path = Ok chunks.
Proof.
  unfold chunk_code_file.
  repeat (destruct (ext_in _ _); [by eexists|]).
  destruct (chunk_by_lines_covers content 100) as (chunks & H & _). by exists chunks.
Qed.

Lemma startswith_spec p s : startswith p s = true ↔ ∃ post, s = p ++ post.
Proof.
  revert s. induction p as [|x p IH]; intros s; simpl.
  - split; [by exists s | done].
  - destruct s as [|y s]; [split; [done | by intros [? ?]]|].
    rewrite andb_true_iff, eqc_eq, IH. split.
    + intros [-> [post ->]]. by exists post.
    + intros [post [= -> ->]]. split; [done | by exists post].
Qed.

(** [p in s] decides [is_infix p s]. *)
Lemma contains_spec p s : contains p s = true ↔ is_infix p s.
Proof.
  induction s as [|y s IH]; simpl.
  - rewrite orb_false_r, startswith_spec. split.
    + intros [post E]. by exists [], post.
    + intros (pre & post & E). exists post.
      destruct pre; [done | discriminate E].
  - rewrite orb_true_iff, startswith_spec, IH. split.
    + intros [[post E]|(pre & post & E)].
      * by exists [], post.
      * exists (y :: pre), post. by rewrite E.
    + intros (pre & post & E). destruct pre as [|z pre].
      * left. by exists post.
      * right. injection E as -> ->. by exists pre, post.
Qed.

Lemma is_infix_refl s : is_infix s s.
Proof. exists [], []. simpl. by rewrite app_nil_r. Qed.

Lemma is_infix_trans a b c : is_infix a b → is_infix b c → is_infix a c.
Proof.
  intros (p1 & q1 & ->) (p2 & q2 & ->).
  exists (p2 ++ p1), (q1 ++ q2). by rewrite <- !app_assoc.
Qed.

Lemma slice_is_infix (s : str) i j : is_infix (slice s i j) s.
Proof.
  unfold slice. exists (take i s), (drop (j - i) (drop i s)).
  by rewrite take_drop, take_drop.
Qed.

(** Every text matched by [re.finditer] is a piece of the subject. *)
Lemma finditer_text_is_infix r s c : c ∈ finditer_text r s → is_infix c s.
Proof.
  unfold finditer_text. intros Hc.
  apply list_elem_of_fmap in Hc as ([i j] & -> & _). apply slice_is_infix.
Qed.

Lemma extract_uncovered_is_infix patterns content uncovered c :
  c ∈ extract_uncovered patterns content uncovered → is_infix c content.
Proof.
  unfold extract_uncovered. intros Hc.
  apply list_elem_of_In, in_flat_map in Hc as ([i j] & _ & Hc).
  apply in_flat_map in Hc as (p & _ & Hc).
  apply list_elem_of_In, finditer_text_is_infix in Hc.
  eapply is_infix_trans; [exact Hc | apply slice_is_infix].
Qed.

(** C1 as stated fails on both counts.  A file of white space only is not
    empty and gets no segment.  And with two chunks found a line of the
    input can be missing from them: the c_style and javascript functions
    keep the class and the imports and drop the declaration after the
    class; the python function drops the indented line ahead of the class,
    which the loop over the remaining lines skips. *)
Lemma all_lines_covered_counterexample :
  chunk_code_file (text " ") (text "notes.txt") = Ok []
  ∧ (let content := unlines ["import a;"; "class A {"; "}"; "int x;"] in
     let chunks := [unlines [""; "class A {"; "}"]; text "import a;"] in
     chunk_code_file content (text "A.java") = Ok chunks
     ∧ text "int x;" ∈ split nl content
     ∧ has_text (text "int x;") = true
     ∧ ¬ is_infix (text "int x;") (concat chunks))
  ∧ (let content := unlines ["import a;"; "class A {"; "}"; "let x = 1"] in
     let chunks := [unlines ["class A {"; "}"]; text "import a;"] in
     chunk_code_file content (text "a.js") = Ok chunks
     ∧ text "let x = 1" ∈ split nl content
     ∧ has_text (text "let x = 1") = true
     ∧ ¬ is_infix (text "let x = 1") (concat chunks))
  ∧ (let content :=
       unlines ["    x = 1"; "class A:"; "    pass"; "def f():"; "    pass"] in
     let chunks := [unlines ["class A:"; "    pass"]; unlines ["def f():"; "    pass"]] in
     chunk_code_file content (text "a.py") = Ok chunks
     ∧ text "    x = 1" ∈ split nl content
     ∧ has_text (text "    x = 1") = true
     ∧ ¬ is_infix (text "    x = 1") (concat chunks)).
Proof.
  split; [by vm_compute|].
  split; [|split]; intros content chunks;
    (split; [by vm_compute|]); (split; [|split; [by vm_compute|]]).
  - vm_compute. do 3 right. by left.
  - intros H%contains_spec. by vm_compute in H.
  - vm_compute. do 3 right. by left.
  - intros H%contains_spec. by vm_compute in H.
  - vm_compute. by left.
  - intros H%contains_spec. by vm_compute in H.
Qed.

Lemma whole_file_if_few_le chunks content :
  length chunks ≤ 1 → whole_file_if_few chunks content = [content].
Proof.
  intros H. unfold whole_file_if_few.
  by destruct (length chunks <=? 1) eqn:E; [|apply Nat.leb_gt in E; lia].
Qed.

Lemma whole_file_if_few_gt chunks content :
  2 ≤ length chunks → whole_file_if_few chunks content = chunks.
Proof.
  intros H. unfold whole_file_if_few.
  by destruct (length chunks <=? 1) eqn:E; [apply Nat.leb_le in E; lia|].
Qed.

(** What [whole_file_if_few] returns in two or more segments is the list
    of chunks it was given. *)
Lemma whole_file_if_few_many chunks content :
  2 ≤ length (whole_file_if_few chunks content) →
  whole_file_if_few chunks content = chunks.
Proof.
  unfold whole_file_if_few. destruct (length chunks <=? 1); [simpl; lia | done].
Qed.

Lemma chunk_c_style_file_found content :
  CStyle.chunk_c_style_file content
  = whole_file_if_few (c_style_found content) content.
Proof.
  unfold CStyle.chunk_c_style_file, c_style_found. by rewrite <- app_assoc.
Qed.

Lemma chunk_javascript_file_found content :
  JavaScript.chunk_javascript_file content
  = whole_file_if_few (javascript_found content) content.
Proof.
  unfold JavaScript.chunk_javascript_file, javascript_found.
  by rewrite <- app_assoc.
Qed.

(** The loop of [extract] appends the definitions to the chunks; what it
    leaves of the content does not depend on the chunks. *)
Lemma extract_spec defs chunks content :
  Python.extract defs chunks content
  = (chunks ++ defs, (Python.extract defs [] content).2).
Proof.
  revert chunks content. induction defs as [|d defs IH]; intros chunks content;
    simpl; [by rewrite app_nil_r|].
  rewrite IH, (IH [d]). simpl. by rewrite <- app_assoc.
Qed.

(** [chunk_python_file] by its stages. *)
Lemma chunk_python_file_found content :
  Python.chunk_python_file content
  = whole_file_if_few
      (python_classes content ++ python_functions content
       ++ (if negb (length (python_module_level content) =? 0)
           then [join [nl] (python_module_level content)] else []))
      (python_remainder content).
Proof.
  unfold Python.chunk_python_file.
  rewrite (extract_spec (finditer_text Python.class_pattern content)).
  fold (python_classes content). fold (python_without_classes content).
  rewrite (extract_spec (finditer_text Python.function_pattern _)).
  fold (python_functions content). fold (python_remainder content).
  fold (python_module_level content). unfold whole_file_if_few. simpl.
  destruct (negb (length (python_module_level content) =? 0));
    by rewrite ?app_nil_r, <- ?app_assoc.
Qed.

(** With no class text and no function text found nothing is removed, and
    the one segment returned is the content. *)
Lemma chunk_python_file_nothing_found content :
  python_classes content = [] → python_functions content = [] →
  Python.chunk_python_file content = [content].
Proof.
  intros Hc Hf. rewrite chunk_python_file_found.
  assert (python_remainder content = content) as ->.
  { unfold python_remainder, python_without_classes. by rewrite Hf, Hc. }
  rewrite Hc, Hf. simpl.
  by destruct (negb (length (python_module_level content) =? 0)).
Qed.

Lemma whole_content_covers_lines (content line : str) :
  line ∈ split nl content → is_infix line (concat [content]).
Proof.
  intros Hline. simpl. rewrite app_nil_r.
  assert (is_infix line (join [nl] (split nl content))) as H
    by (by apply is_infix_join).
  by rewrite join_split in H.
Qed.

(** A chunk handed to [whole_file_if_few] is in what it returns, when it
    is a piece of the content. *)
Lemma whole_file_if_few_keeps chunks content c :
  c ∈ chunks → is_infix c content →
  is_infix c (concat (whole_file_if_few chunks content)).
Proof.
  intros Hin Hc. unfold whole_file_if_few. destruct (length chunks <=? 1).
  - simpl. by rewrite app_nil_r.
  - eapply is_infix_concat; [exact Hin | apply is_infix_refl].
Qed.

(** The same for a matched import, which is returned inside the joined
    import chunk. *)
Lemma whole_file_if_few_keeps_import classes others imports content c :
  c ∈ imports → is_infix c content →
  is_infix c (concat (whole_file_if_few
                        (classes ++ others ++ import_chunk imports) content)).
Proof.
  intros Hin Hc. unfold whole_file_if_few. destruct (length _ <=? 1).
  - simpl. by rewrite app_nil_r.
  - destruct imports as [|i imports]; [by apply elem_of_nil in Hin|].
    apply (is_infix_concat _ (join [nl] (i :: imports))).
    + rewrite !elem_of_app. right. right. by left.
    + by apply is_infix_join.
Qed.

(** C1, amended: for every input with a character that is not white space
    the python, c_style and javascript functions, [chunk_code_file] and
    [chunk_by_lines] return at least one segment.  The concatenation of
    the segments contains: for [chunk_by_lines], every line of the input
    that is not white space only; for [chunk_c_style_file] and
    [chunk_javascript_file], every line of the input when at most one chunk
    was found, and in every case the text of each class match, of each
    method or function match of the uncovered ranges and of each import
    match; for [chunk_python_file], every line of the input when no class
    text and no function text is found, and, when it returns two or more
    segments, each class text, each function text found once the class
    texts are removed, and the module-level lines gathered from what is
    left. *)
Theorem segments_exist_and_found_text_is_returned (content file_path : str) :
  has_text content = true →
  Python.chunk_python_file content ≠ []
  ∧ CStyle.chunk_c_style_file content ≠ []
  ∧ JavaScript.chunk_javascript_file content ≠ []
  ∧ (∃ chunks, chunk_code_file content file_path = Ok chunks ∧ chunks ≠ [])
  ∧ (∃ chunks,
       ByLines.chunk_by_lines content 100 = Ok chunks ∧ chunks ≠ []
       ∧ ∀ line, line ∈ split nl content → has_text line = true →
           is_infix line (concat chunks))
  ∧ (length (c_style_found content) ≤ 1 →
     ∀ line, line ∈ split nl content →
       is_infix line (concat (CStyle.chunk_c_style_file content)))
  ∧ (∀ c, c ∈ CStyle.class_chunks content ∨ c ∈ CStyle.method_chunks content
          ∨ c ∈ finditer_text CStyle.import_pattern content →
       is_infix c (concat (CStyle.chunk_c_style_file content)))
  ∧ (length (javascript_found content) ≤ 1 →
     ∀ line, line ∈ split nl content →
       is_infix line (concat (JavaScript.chunk_javascript_file content)))
  ∧ (∀ c, c ∈ JavaScript.class_chunks content
          ∨ c ∈ JavaScript.function_chunks content
          ∨ c ∈ finditer_text JavaScript.import_pattern content →
       is_infix c (concat (JavaScript.chunk_javascript_file content)))
  ∧ (python_classes content = [] → python_functions content = [] →
     ∀ line, line ∈ split nl content →
       is_infix line (concat (Python.chunk_python_file content)))
  ∧ (2 ≤ length (Python.chunk_python_file content) →
     ∀ c, c ∈ python_classes content ∨ c ∈ python_functions content
          ∨ c = join [nl] (python_module_level content) →
       is_infix c (concat (Python.chunk_python_file content))).
Proof.
  intros Htext.
  split; [apply chunk_python_file_not_nil|].
  split; [apply chunk_c_style_file_not_nil|].
  split; [apply chunk_javascript_file_not_nil|].
  destruct (chunk_by_lines_not_nil content 100 Htext) as (chunks & Hc & Hne).
  split.
  { unfold chunk_code_file.
    destruct (ext_in _ _); [eexists; split; [done | apply chunk_python_file_not_nil]|].
    destruct (ext_in _ _); [eexists; split; [done | apply chunk_c_style_file_not_nil]|].
    destruct (ext_in _ _); [eexists; split; [done | apply chunk_javascript_file_not_nil]|].
    by exists chunks. }
  split.
  { exists chunks. split; [done|]. split; [done|].
    intros line Hline Hl.
    destruct (chunk_by_lines_covers content 100) as (chunks' & Hc' & Hcov).
    rewrite Hc in Hc'. injection Hc' as <-.
    destruct (Hcov line Hline Hl) as (c & Hin & Hinf).
    by eapply is_infix_concat. }
  split.
  { intros Hfew line Hline.
    rewrite chunk_c_style_file_found, whole_file_if_few_le by done.
    by apply whole_content_covers_lines. }
  split.
  { intros c Hc'. rewrite chunk_c_style_file_found. unfold c_style_found.
    destruct Hc' as [Hin|[Hin|Hin]].
    - apply whole_file_if_few_keeps; [rewrite !elem_of_app; by left|].
      by apply finditer_text_is_infix in Hin.
    - apply whole_file_if_few_keeps; [rewrite !elem_of_app; right; by left|].
      by apply extract_uncovered_is_infix in Hin.
    - apply whole_file_if_few_keeps_import; [done|].
      by apply finditer_text_is_infix in Hin. }
  split.
  { intros Hfew line Hline.
    rewrite chunk_javascript_file_found, whole_file_if_few_le by done.
    by apply whole_content_covers_lines. }
  split.
  { intros c Hc'. rewrite chunk_javascript_file_found. unfold javascript_found.
    destruct Hc' as [Hin|[Hin|Hin]].
    - apply whole_file_if_few_keeps; [rewrite !elem_of_app; by left|].
      by apply finditer_text_is_infix in Hin.
    - apply whole_file_if_few_keeps; [rewrite !elem_of_app; right; by left|].
      by apply extract_uncovered_is_infix in Hin.
    - apply whole_file_if_few_keeps_import; [done|].
      by apply finditer_text_is_infix in Hin. }
  split.
  { intros Hcls Hfun line Hline.
    rewrite chunk_python_file_nothing_found by done.
    by apply whole_content_covers_lines. }
  intros Hmany c Hc'. rewrite chunk_python_file_found in Hmany |- *.
  rewrite whole_file_if_few_many by done.
  destruct Hc' as [Hin | [Hin | ->]].
  - eapply is_infix_concat; [|apply is_infix_refl].
    rewrite !elem_of_app. by left.
  - eapply is_infix_concat; [|apply is_infix_refl].
    rewrite !elem_of_app. right. by left.
  - destruct (python_module_level content) as [|l ls] eqn:E.
    + by exists [], (concat (python_classes content ++ python_functions content ++ [])).
    + eapply is_infix_concat; [|apply is_infix_refl].
      rewrite !elem_of_app. right. right. by left.
Qed.

Lemma segments_exist_and_found_text_witness :
  (∃ chunks,
     ByLines.chunk_by_lines Sample.import_and_statement 100 = Ok chunks
     ∧ chunks ≠ []
     ∧ ∀ line, line ∈ split nl Sample.import_and_statement →
         has_text line = true → is_infix line (concat chunks))
  ∧ (∀ line, line ∈ split nl Sample.import_and_statement →
       is_infix line
         (concat (CStyle.chunk_c_style_file Sample.import_and_statement)))
  ∧ (∀ line, line ∈ split nl Sample.import_and_statement →
       is_infix line
         (concat (JavaScript.chunk_javascript_file Sample.import_and_statement)))
  ∧ (∀ line, line ∈ split nl Sample.import_and_statement →
       is_infix line
         (concat (Python.chunk_python_file Sample.import_and_statement))).
Proof.
  destruct (segments_exist_and_found_text_is_returned
              Sample.import_and_statement (text "notes.txt"))
    as (_ & _ & _ & _ & Hl & Hc & _ & Hj & _ & Hp & _);
    [vm_compute; reflexivity|].
  split; [exact Hl|]. split; [|split].
  - apply Hc. vm_compute. lia.
  - apply Hj. vm_compute. lia.
  - apply Hp; vm_compute; reflexivity.
Defined.

(** C3 as stated fails at both ends: on the empty input the python
    function returns one segment, the empty string, not the empty sequence;
    on an input of one blank the fallback returns no segment at all. *)
Lemma segment_count_counterexample :
  chunk_code_file [] (text "a.py") = Ok [[]]
  ∧ chunk_code_file (text " ") (text "notes.txt") = Ok [].
Proof. split; by vm_compute. Qed.

(** C3, amended: [chunk_code_file] never raises.  On the empty input
    [chunk_by_lines] returns the empty sequence and the python, c_style and
    javascript functions return the one-element sequence holding the empty
    string.  On every input the latter three return at least one segment:
    [chunk_c_style_file] and [chunk_javascript_file] return the content as
    the one segment when at most one chunk was found and the chunks found
    otherwise; [chunk_python_file] returns the content as the one segment
    when no class text and no function text is found.  [chunk_by_lines]
    returns at least one segment exactly when the input has a character
    that is not white space. *)
Theorem segmenter_never_raises_and_segment_counts (content file_path : str) :
  (∃ chunks, chunk_code_file content file_path = Ok chunks)
  ∧ ByLines.chunk_by_lines [] 100 = Ok []
  ∧ Python.chunk_python_file [] = [[]]
  ∧ CStyle.chunk_c_style_file [] = [[]]
  ∧ JavaScript.chunk_javascript_file [] = [[]]
  ∧ Python.chunk_python_file content ≠ []
  ∧ CStyle.chunk_c_style_file content ≠ []
  ∧ JavaScript.chunk_javascript_file content ≠ []
  ∧ (∃ chunks, ByLines.chunk_by_lines content 100 = Ok chunks
       ∧ (chunks ≠ [] ↔ has_text content = true))
  ∧ (length (c_style_found content) ≤ 1 →
     CStyle.chunk_c_style_file content = [content])
  ∧ (2 ≤ length (c_style_found content) →
     CStyle.chunk_c_style_file content = c_style_found content)
  ∧ (length (javascript_found content) ≤ 1 →
     JavaScript.chunk_javascript_file content = [content])
  ∧ (2 ≤ length (javascript_found content) →
     JavaScript.chunk_javascript_file content = javascript_found content)
  ∧ (python_classes content = [] → python_functions content = [] →
     Python.chunk_python_file content = [content]).
Proof.
  split; [apply chunk_code_file_ok|].
  do 4 (split; [by vm_compute|]).
  split; [apply chunk_python_file_not_nil|].
  split; [apply chunk_c_style_file_not_nil|].
  split; [apply chunk_javascript_file_not_nil|].
  split.
  { destruct (chunk_by_lines_covers content 100) as (chunks & Hc & _).
    exists chunks. split; [done|]. split.
    - by apply (chunk_by_lines_text content 100).
    - intros Htext.
      destruct (chunk_by_lines_not_nil content 100 Htext) as (chunks' & Hc' & Hne).
      rewrite Hc in Hc'. by injection Hc' as <-. }
  rewrite chunk_c_style_file_found, chunk_javascript_file_found.
  split; [apply whole_file_if_few_le|].
  split; [apply whole_file_if_few_gt|].
  split; [apply whole_file_if_few_le|].
  split; [apply whole_file_if_few_gt|].
  apply chunk_python_file_nothing_found.
Qed.

Lemma segment_counts_witness :
  CStyle.chunk_c_style_file Sample.import_and_statement
  = [Sample.import_and_statement]
  ∧ JavaScript.chunk_javascript_file Sample.import_and_statement
    = [Sample.import_and_statement]
  ∧ Python.chunk_python_file Sample.import_and_statement
    = [Sample.import_and_statement].
Proof.
  destruct (segmenter_never_raises_and_segment_counts
              Sample.import_and_statement (text "A.java"))
    as (_ & _ & _ & _ & _ & _ & _ & _ & _ & Hc & _ & Hj & _ & Hp).
  split; [|split].
  - apply Hc. vm_compute. lia.
  - apply Hj. vm_compute. lia.
  - apply Hp; vm_compute; reflexivity.
Defined.

(** With one class span recorded, the pass over the uncovered ranges reads
    the text before the span and the text after it, and nothing else. *)
Lemma method_chunks_one_class content s e :
  CStyle.class_positions content = [(s, e)] →
  CStyle.method_chunks content
  = (if 0 <? s
     then finditer_text CStyle.method_pattern (firstn s content) else [])
    ++ (if e <? length content
        then finditer_text CStyle.method_pattern (skipn e content) else []).
Proof.
  intros Hcls. unfold CStyle.method_chunks.
  rewrite Hcls, uncovered_ranges_one_class. unfold extract_uncovered.
  destruct (0 <? s); destruct (e <? length content); simpl;
    by rewrite ?app_nil_r, ?slice_from_0, ?slice_to_end.
Qed.

(** C7 as stated fails: in a class written without indentation the class
    match stops at the closing brace of the first method, the first line
    that starts with a closing brace.  The span recorded for the class is
    [(0, 29)], the range [(29, 51)] is left uncovered, and the second
    method is extracted again from it, although the file holds one class
    with two methods and nothing outside the class. *)
Lemma unindented_class_counterexample :
  CStyle.class_positions Sample.unindented_class = [(0, 29)]
  ∧ CStyle.class_chunks Sample.unindented_class
    = [unlines ["class A {"; "public void f() {"; "}"]]
  ∧ uncovered_ranges Sample.unindented_class
      (CStyle.class_positions Sample.unindented_class) = [(29, 51)]
  ∧ CStyle.method_chunks Sample.unindented_class
    = [unlines ["public void g() {"; "}"]]
  ∧ CStyle.chunk_c_style_file Sample.unindented_class
    = [unlines ["class A {"; "public void f() {"; "}"];
       unlines ["public void g() {"; "}"]].
Proof. repeat split; by vm_compute. Qed.

(** C7, amended: in a c_style input with one class span recorded, the
    pass over the uncovered ranges matches the method pattern in the text
    before the span and in the text after it only, so no method inside the
    recorded span is extracted again; and it appends no chunk at all when
    neither of the two texts holds a newline followed by a closing brace
    (the method pattern ends on a line that starts with a closing brace). *)
Theorem methods_inside_the_recorded_span_are_not_extracted_again
  (content : str) (s e : nat) :
  CStyle.class_positions content = [(s, e)] →
  CStyle.method_chunks content
  = (if 0 <? s
     then finditer_text CStyle.method_pattern (firstn s content) else [])
    ++ (if e <? length content
        then finditer_text CStyle.method_pattern (skipn e content) else [])
  ∧ (¬ is_infix line_closing_brace (firstn s content) →
     ¬ is_infix line_closing_brace (skipn e content) →
     CStyle.method_chunks content = []).
Proof.
  intros Hcls. split; [by apply method_chunks_one_class|].
  intros Hbefore Hafter. rewrite (method_chunks_one_class content s e Hcls).
  rewrite !finditer_text_nil
    by (apply finditer_without_brace_line; [by vm_compute | done]).
  by destruct (0 <? s); destruct (e <? length content).
Qed.

Lemma methods_inside_the_recorded_span_witness :
  CStyle.class_positions Sample.class_with_two_methods = [(10, 113)]
  ∧ ¬ is_infix line_closing_brace (firstn 10 Sample.class_with_two_methods)
  ∧ ¬ is_infix line_closing_brace (skipn 113 Sample.class_with_two_methods)
  ∧ CStyle.method_chunks Sample.class_with_two_methods = [].
Proof.
  assert (CStyle.class_positions Sample.class_with_two_methods = [(10, 113)]) as H
    by (vm_compute; reflexivity).
  assert (¬ is_infix line_closing_brace (firstn 10 Sample.class_with_two_methods))
    as Hbefore by (intros Hin%contains_spec; by vm_compute in Hin).
  assert (¬ is_infix line_closing_brace (skipn 113 Sample.class_with_two_methods))
    as Hafter by (intros Hin%contains_spec; by vm_compute in Hin).
  split; [exact H|]. split; [exact Hbefore|]. split; [exact Hafter|].
  destruct (methods_inside_the_recorded_span_are_not_extracted_again
              Sample.class_with_two_methods 10 113 H) as [_ Hnone].
  by apply Hnone.
Defined.

End Segmenter.

(** ** The walker and the indexing loop *)

Section IndexerFacts.

Variable glob : str → list str.
Variable read_file : str → outcome str.
Variable relpath : str → str → outcome str.
Variable embedding : Type.
Variable encode : list str → list embedding.

Local Abbreviation file_body := (Indexer.file_body read_file relpath).
Local Abbreviation file_chunks := (Indexer.file_chunks read_file relpath).
Local Abbreviation file_effect := (Indexer.file_effect read_file relpath).
Local Abbreviation process_file := (Indexer.process_file read_file relpath).
Local Abbreviation walk_files := (Indexer.walk_files read_file relpath).
Local Abbreviation client := (Indexer.client embedding).
Local Abbreviation point := (Indexer.point embedding).
Local Abbreviation process_repository :=
  (Indexer.process_repository glob read_file relpath embedding encode).
Local Abbreviation index_repositories :=
  (Indexer.index_repositories glob read_file relpath embedding encode).

Lemma walk_add_nil w : walk_add [] [] [] w = w.
Proof. destruct w. unfold walk_add. simpl. by rewrite !app_nil_r. Qed.

Lemma walk_add_add X1 Y1 E1 X2 Y2 E2 w :
  walk_add X2 Y2 E2 (walk_add X1 Y1 E1 w)
  = walk_add (X1 ++ X2) (Y1 ++ Y2) (E1 ++ E2) w.
Proof. unfold walk_add. simpl. by rewrite !app_assoc. Qed.

(** The loop over [enumerate(chunks)] appends every chunk and never
    raises. *)
Lemma for_each_append (mk : nat → metadata) (l : list (nat * str)) w :
  for_each l (fun '(i, chunk) => append_chunk chunk (mk i)) w
  = (Ok tt, walk_add (map snd l) (map (fun ic => mk (fst ic)) l) [] w).
Proof.
  revert w. induction l as [|[i chunk] l IH]; intros w; simpl.
  - by rewrite walk_add_nil.
  - unfold bind, append_chunk, modify. rewrite IH.
    f_equal. unfold walk_add. simpl. by rewrite <- !app_assoc.
Qed.

(** The body of the [try] either raises before it touched the lists, or
    appends the chunks of the file. *)
Lemma file_body_spec repo_path path w :
  file_body repo_path path w =
    match file_chunks repo_path path with
    | Raise e => (Raise e, w)
    | Ok cms => (Ok tt, walk_add (map fst cms) (map snd cms) [] w)
    end.
Proof.
  unfold Indexer.file_body, Indexer.file_chunks, bind, lift.
  destruct (read_file path) as [content|e]; [|done].
  destruct (relpath path repo_path) as [rel_path|e]; [|done].
  destruct (chunk_code_file content path) as [chunks|e]; [|done].
  rewrite (for_each_append
             (fun i => {| file_path := rel_path; repo_name := basename repo_path;
                          chunk_id := i;
                          language := skipn 1 (splitext_ext path) |})).
  rewrite !map_map. do 2 f_equal; apply map_ext; by intros [i chunk].
Qed.

Lemma process_file_spec repo_path path w :
  process_file repo_path path w =
    (Ok tt, walk_add (file_effect repo_path path).1.1
              (file_effect repo_path path).1.2
              (file_effect repo_path path).2 w).
Proof.
  unfold Indexer.process_file, Indexer.file_effect.
  destruct (excluded path).
  - simpl. by rewrite walk_add_nil.
  - unfold try_except. rewrite file_body_spec.
    destruct (file_chunks repo_path path) as [cms|e]; [done|].
    unfold log_walk, modify, walk_add. simpl. by rewrite !app_nil_r.
Qed.

(** The walk never raises, and what it adds is the sum of what each file
    adds. *)
Lemma walk_files_spec repo_path files w :
  walk_files repo_path files w =
    (Ok tt, walk_add (flat_map (fun f => (file_effect repo_path f).1.1) files)
              (flat_map (fun f => (file_effect repo_path f).1.2) files)
              (flat_map (fun f => (file_effect repo_path f).2) files) w).
Proof.
  unfold Indexer.walk_files. revert w.
  induction files as [|f files IH]; intros w; simpl.
  - by rewrite walk_add_nil.
  - unfold bind. rewrite process_file_spec, IH. by rewrite walk_add_add.
Qed.

(** C8: a file whose read, relative path or segmentation raises is caught
    and logged, contributes no chunk and no metadata, and the walk goes on:
    the lists after the walk are those of the walk without that file, and
    the walk itself does not raise. *)
Theorem failing_file_is_skipped_and_logged
  (repo_path : str) (before after : list str) (path : str) (e : exn) (w : walk) :
  excluded path = false →
  fst (file_body repo_path path (snd (walk_files repo_path before w))) = Raise e →
  let walked := walk_files repo_path (before ++ path :: after) w in
  let without := walk_files repo_path (before ++ after) w in
  fst walked = Ok tt
  ∧ all_chunks (snd walked) = all_chunks (snd without)
  ∧ file_metadata (snd walked) = file_metadata (snd without)
  ∧ LogFileError path e ∈ wlog (snd walked).
Proof.
  intros Hex Hraise walked without. subst walked without.
  rewrite file_body_spec in Hraise.
  assert (file_effect repo_path path = ([], [], [LogFileError path e])) as Heff.
  { unfold Indexer.file_effect. rewrite Hex.
    destruct (file_chunks repo_path path); simpl in Hraise; congruence. }
  rewrite !walk_files_spec. simpl.
  rewrite !flat_map_app. simpl. rewrite Heff. simpl.
  repeat split.
  apply elem_of_app. right. apply elem_of_app. right. by left.
Qed.

Lemma client_add_add B1 E1 B2 E2 (c : client) :
  client_add embedding B2 E2 (client_add embedding B1 E1 c)
  = client_add embedding (B1 ++ B2) (E1 ++ E2) c.
Proof. unfold client_add. simpl. by rewrite foldl_app, !app_assoc. Qed.

Lemma client_add_nil (c : client) : client_add embedding [] [] c = c.
Proof. destruct c. unfold client_add. simpl. by rewrite !app_nil_r. Qed.

Lemma uniform_ret {A} (a : A) : uniform embedding (ret a).
Proof. exists (Ok a), [], []. intros c. by rewrite client_add_nil. Qed.

Lemma uniform_lift {A} (o : outcome A) : uniform embedding (lift o).
Proof. exists o, [], []. intros c. by rewrite client_add_nil. Qed.

Lemma uniform_bind {A B} (m : M client A) (f : A → M client B) :
  uniform embedding m → (∀ a, uniform embedding (f a)) →
  uniform embedding (bind m f).
Proof.
  intros (o & B1 & E1 & Hm) Hf. destruct o as [a|e].
  - destruct (Hf a) as (o2 & B2 & E2 & Hfa).
    exists o2, (B1 ++ B2), (E1 ++ E2). intros c.
    unfold bind. by rewrite Hm, Hfa, client_add_add.
  - exists (Raise e), B1, E1. intros c. unfold bind. by rewrite Hm.
Qed.

Lemma uniform_log e : uniform embedding (log_client embedding e).
Proof.
  exists (Ok tt), [], [e]. intros c. unfold log_client, modify, client_add.
  simpl. by rewrite app_nil_r.
Qed.

Lemma uniform_upsert points : uniform embedding (upsert embedding points).
Proof. by exists (Ok tt), [points], []; intros c; unfold upsert, modify, client_add;
  simpl; rewrite app_nil_r. Qed.

Lemma uniform_for_each {A} (xs : list A) (body : A → M client unit) :
  (∀ x, uniform embedding (body x)) → uniform embedding (for_each xs body).
Proof.
  intros Hbody. induction xs as [|x xs IH]; simpl.
  - apply uniform_ret.
  - by apply uniform_bind.
Qed.

Lemma uniform_comprehension {A B} (xs : list A) (f : A → M client B) :
  (∀ x, uniform embedding (f x)) → uniform embedding (comprehension xs f).
Proof.
  intros Hf. induction xs as [|x xs IH]; simpl.
  - apply uniform_ret.
  - apply uniform_bind; [done|]. intros y.
    apply uniform_bind; [done|]. intros ys. apply uniform_ret.
Qed.

Lemma uniform_index_batch chunks mds i :
  uniform embedding (index_batch embedding encode chunks mds i).
Proof.
  unfold index_batch. apply uniform_bind.
  - apply uniform_comprehension. intros [j emb].
    apply uniform_bind; [apply uniform_lift|]. intros t.
    apply uniform_bind; [apply uniform_lift|]. intros md. apply uniform_ret.
  - intros points. apply uniform_bind; [apply uniform_upsert|].
    intros _. apply uniform_log.
Qed.

(** Nothing in [process_repository] reads the collection: what it upserts
    and logs, and whether it raises, is the same whatever the store holds. *)
Lemma uniform_process_repository repo_path :
  uniform embedding (process_repository repo_path).
Proof.
  unfold Indexer.process_repository.
  apply uniform_bind; [apply uniform_log|]. intros _.
  apply uniform_bind; [apply uniform_log|]. intros _.
  set (code_files := flat_map _ code_extensions).
  set (X := flat_map (fun f => (file_effect repo_path f).1.1) code_files).
  set (Y := flat_map (fun f => (file_effect repo_path f).1.2) code_files).
  set (E := flat_map (fun f => (file_effect repo_path f).2) code_files).
  destruct (uniform_for_each
              (ByLines.range_up (length X) 0 (length X) batch_size)
              (index_batch embedding encode X Y)
              (uniform_index_batch X Y)) as (o & B & E' & Hloop).
  destruct X as [|x X'] eqn:EX.
  - exists (Ok tt), [], (E ++ [LogNoChunks]). intros c.
    rewrite walk_files_spec. fold X Y E. rewrite EX. simpl.
    unfold log_client, modify, client_add. simpl.
    by rewrite app_nil_r, app_assoc.
  - exists o, B, (E ++ E'). intros c.
    rewrite walk_files_spec. fold X Y E. rewrite EX.
    cbn [walk_add all_chunks file_metadata wlog app].
    pose proof (client_add_add [] E B E' c) as Hadd. cbn [app] in Hadd.
    rewrite <- Hadd, <- Hloop. unfold client_add. simpl.
    by rewrite app_nil_r.
Qed.

Lemma uniform_index_repositories repositories :
  uniform embedding (index_repositories repositories).
Proof. apply uniform_for_each, uniform_process_repository. Qed.

(** Upserting into any collection is upserting into the empty one, laid
    over the collection. *)
Lemma store_points_union (m : gmap nat point) points :
  store_points embedding m points = store_points embedding ∅ points ∪ m.
Proof.
  unfold store_points. revert m.
  induction points as [|p points IH]; intros m; simpl.
  - by rewrite (left_id_L ∅ (∪)).
  - rewrite IH, (IH (<[id embedding p:=p]> ∅)).
    rewrite <- (assoc_L (∪)). f_equal.
    by rewrite insert_empty, <- insert_union_singleton_l.
Qed.

Lemma store_points_concat (m : gmap nat point) batches :
  foldl (store_points embedding) m batches
  = store_points embedding m (concat batches).
Proof.
  revert m. induction batches as [|b batches IH]; intros m; simpl; [done|].
  rewrite IH. unfold store_points. by rewrite foldl_app.
Qed.

(** Upserting the same batches a second time changes nothing. *)
Lemma store_points_twice (m : gmap nat point) batches :
  foldl (store_points embedding) (foldl (store_points embedding) m batches) batches
  = foldl (store_points embedding) m batches.
Proof.
  rewrite !store_points_concat.
  rewrite (store_points_union (store_points _ _ _)), (store_points_union m).
  by rewrite (assoc_L (∪)), map_union_idemp.
Qed.

(** *** The ids of one call of [process_repository] *)

Lemma length_slice {A} (l : list A) i j :
  length (slice l i j) = (j - i) `min` (length l - i).
Proof. unfold slice. by rewrite length_take, length_drop. Qed.

(** The list comprehension that builds the points of a batch: with a row
    for every text of the batch no index is out of range, and the ids are
    [i], [i + 1], ... *)
Lemma batch_points (batch_chunks : list str) (batch_metadata : list metadata)
  (i : nat) (c : client) :
  ∀ (embeddings : list embedding) (k : nat),
    k + length embeddings ≤ length batch_chunks →
    k + length embeddings ≤ length batch_metadata →
    ∃ points,
      comprehension (imap (fun j emb => (k + j, emb)) embeddings)
        (fun '(j, emb) =>
           bind (index batch_chunks j) (fun t =>
           bind (index batch_metadata j) (fun md =>
           ret {| id := i + j; vector := emb; payload_text := t;
                  payload := md |}))) c
      = (Ok points, c)
      ∧ map (id embedding) points = seq (i + k) (length embeddings).
Proof.
  induction embeddings as [|emb embeddings IH]; intros k Hc Hm.
  - by exists [].
  - simpl in Hc, Hm.
    destruct (IH (S k)) as (points & Hpoints & Hids); [lia | lia |].
    destruct (lookup_lt_is_Some_2 batch_chunks k) as [t Ht]; [lia|].
    destruct (lookup_lt_is_Some_2 batch_metadata k) as [md Hmd]; [lia|].
    exists ({| id := i + k; vector := emb; payload_text := t; payload := md |}
            :: points).
    rewrite imap_cons. cbn [comprehension].
    rewrite (imap_ext _ (fun j emb => (S k + j, emb)))
      by (intros j x _; simpl; f_equal; lia).
    unfold bind at 1. unfold bind at 1. unfold index at 1, lift at 1.
    rewrite Nat.add_0_r, Ht. unfold bind at 1. unfold index at 1, lift at 1.
    rewrite Hmd. unfold ret at 1. unfold bind at 1. rewrite Hpoints.
    unfold ret. split; [reflexivity|].
    simpl. rewrite Hids. f_equal. f_equal. lia.
Qed.

Lemma upserted_ids_client_add B E (c : client) :
  upserted_ids embedding (client_add embedding B E c)
  = upserted_ids embedding c ++ map (id embedding) (concat B).
Proof. unfold upserted_ids, client_add. simpl. by rewrite concat_app, map_app. Qed.

Section OneRowPerText.

Hypothesis encode_rows : ∀ batch, length (encode batch) = length batch.

Lemma index_batch_ids chunks mds i (c : client) :
  length mds = length chunks →
  ∃ points E,
    index_batch embedding encode chunks mds i c
    = (Ok tt, client_add embedding [points] E c)
    ∧ map (id embedding) points
      = seq i (batch_size `min` (length chunks - i)).
Proof using Type encode_rows.
  intros Hlen. unfold index_batch.
  destruct (batch_points (slice chunks i (i + batch_size))
              (slice mds i (i + batch_size)) i c
              (encode (slice chunks i (i + batch_size))) 0)
    as (points & Hpoints & Hids).
  { rewrite encode_rows. simpl. lia. }
  { rewrite encode_rows, !length_slice, Hlen. simpl. lia. }
  exists points. eexists. split.
  - unfold enumerate. unfold bind at 1.
    rewrite (imap_ext _ (fun j emb => (0 + j, emb))) by done.
    rewrite Hpoints. unfold bind, upsert, log_client, modify, client_add. simpl.
    reflexivity.
  - rewrite Hids, encode_rows, length_slice, Nat.add_0_r.
    f_equal. lia.
Qed.

Lemma batches_ids chunks mds :
  length mds = length chunks →
  ∀ fuel i (c : client),
    i ≤ length chunks → length chunks ≤ i + fuel * batch_size →
    ∃ B E,
      for_each (ByLines.range_up fuel i (length chunks) batch_size)
        (index_batch embedding encode chunks mds) c
      = (Ok tt, client_add embedding B E c)
      ∧ map (id embedding) (concat B) = seq i (length chunks - i).
Proof using Type encode_rows.
  intros Hlen. induction fuel as [|f IH]; intros i c Hi Hfuel; simpl.
  - exists [], []. rewrite client_add_nil. split; [done|].
    by replace (length chunks - i) with 0 by lia.
  - destruct (i <? length chunks) eqn:E.
    + apply Nat.ltb_lt in E.
      destruct (index_batch_ids chunks mds i c Hlen) as (points & E1 & Hb & Hids).
      destruct (decide (i + batch_size ≤ length chunks)) as [Hle|Hgt].
      * destruct (IH (i + batch_size) (client_add embedding [points] E1 c))
          as (B & E2 & Hrest & Hids2); [lia | lia |].
        exists ([points] ++ B), (E1 ++ E2). split.
        -- simpl. unfold bind. by rewrite Hb, Hrest, client_add_add.
        -- simpl. rewrite map_app, Hids, Hids2.
           replace (batch_size `min` (length chunks - i)) with batch_size by lia.
           replace (length chunks - i)
             with (batch_size + (length chunks - (i + batch_size))) by lia.
           by rewrite seq_app.
      * exists [points], E1. split.
        -- simpl. unfold bind. rewrite Hb.
           destruct f as [|f']; simpl.
           ++ done.
           ++ destruct (i + batch_size <? length chunks) eqn:E'; [|done].
              apply Nat.ltb_lt in E'. lia.
        -- simpl. rewrite app_nil_r, Hids. f_equal. lia.
    + apply Nat.ltb_ge in E. exists [], []. rewrite client_add_nil.
      split; [done|]. by replace (length chunks - i) with 0 by lia.
Qed.

Lemma file_effect_lengths repo_path files :
  length (flat_map (fun f => (file_effect repo_path f).1.2) files)
  = length (flat_map (fun f => (file_effect repo_path f).1.1) files).
Proof.
  induction files as [|f files IH]; simpl; [done|].
  rewrite !length_app, IH. f_equal.
  unfold Indexer.file_effect. destruct (excluded f); [done|].
  destruct (file_chunks repo_path f); [|done]. simpl. by rewrite !length_map.
Qed.

(** With an embedding model that returns one row per text, one call of
    [process_repository] does not raise and upserts its [n] chunks under the
    ids [0 .. n-1], in this order, whatever ids earlier calls used. *)
Lemma process_repository_ids repo_path (c : client) :
  ∃ n c',
    process_repository repo_path c = (Ok tt, c')
    ∧ upserted_ids embedding c' = upserted_ids embedding c ++ seq 0 n.
Proof using Type encode_rows.
  unfold Indexer.process_repository.
  set (code_files := flat_map _ code_extensions).
  pose proof (file_effect_lengths repo_path code_files) as Hlen.
  unfold bind at 1. unfold log_client at 1, modify at 1.
  unfold bind at 1. unfold log_client at 1, modify at 1.
  rewrite walk_files_spec.
  cbn [walk_add all_chunks file_metadata wlog app collection upserts log].
  revert Hlen.
  generalize (flat_map (fun f => (file_effect repo_path f).1.1) code_files).
  generalize (flat_map (fun f => (file_effect repo_path f).1.2) code_files).
  intros Y X Hlen.
  match goal with |- context [log_client _ LogNoChunks ?c0] => set (c1 := c0) end.
  destruct (batches_ids X Y Hlen (length X) 0 c1) as (B & E & Hloop & Hids);
    [lia | unfold batch_size; lia |].
  exists (length X). destruct X as [|x X'].
  - eexists. split; [reflexivity|]. unfold upserted_ids. simpl.
    by rewrite app_nil_r.
  - rewrite Hloop. eexists. split; [reflexivity|].
    by rewrite upserted_ids_client_add, Hids, Nat.sub_0_r.
Qed.

End OneRowPerText.

(** C4, amended: a second run over the same repositories against the same
    store, not cleared in between, hands [upsert] the same batches under
    the same ids as the first run; every entry is overwritten in place and
    the collection after the second run is the collection after the first,
    one set of entries and not two. *)
Theorem second_run_rewrites_the_same_ids (repositories : list str) (c : client) :
  let first := index_repositories repositories c in
  let second := index_repositories repositories (snd first) in
  ∃ batches,
    upserts embedding (snd first) = upserts embedding c ++ batches
    ∧ upserts embedding (snd second) = upserts embedding (snd first) ++ batches
    ∧ collection embedding (snd second) = collection embedding (snd first)
    ∧ fst second = fst first.
Proof.
  destruct (uniform_index_repositories repositories) as (o & B & E & H).
  simpl. rewrite !H. simpl. exists B. repeat split.
  apply store_points_twice.
Qed.

End IndexerFacts.

(** C4 as stated fails: two runs over [/repos/a] (two chunks) upsert the
    ids 0 and 1 twice, and the store ends with two entries, not four. *)
Lemma two_runs_counterexample :
  let first := Sample.index_repositories ["/repos/a"] Sample.empty_client in
  let second := Sample.index_repositories ["/repos/a"] (snd first) in
  map (map (id nat)) (upserts nat (snd second)) = [[0; 1]; [0; 1]]
  ∧ strictly_increasing (upserted_ids nat (snd second)) = false
  ∧ size (collection nat (snd second)) = 2.
Proof. vm_compute. repeat split; reflexivity. Qed.

(** C5 (the code departs from the claim): the id is [i + j] with [i] the
    batch offset inside one call of [process_repository], so it starts at 0
    again for the next repository of the run.  With [/repos/a] (two chunks)
    and [/repos/b] (one chunk) the ids are 0, 1, 0, and the point stored
    under 0 is the one of [/repos/b]. *)
Theorem ids_restart_for_each_repository :
  let c := snd (Sample.index_repositories ["/repos/a"; "/repos/b"]
                  Sample.empty_client) in
  upserted_ids nat c = [0; 1; 0]
  ∧ strictly_increasing (upserted_ids nat c) = false
  ∧ payload nat <$> collection nat c !! 0
    = Some {| file_path := text "main.py"; repo_name := text "b";
              chunk_id := 0; language := text "py" |}
  ∧ size (collection nat c) = 2.
Proof. vm_compute. repeat split; reflexivity. Qed.

Lemma failing_file_witness :
  let walked :=
    Indexer.walk_files Sample.read_file Sample.relpath (text "/repos/a")
      [text "/repos/a/one.py"; text "/repos/a/two.py"] Sample.empty_walk in
  fst walked = Ok tt
  ∧ LogFileError (text "/repos/a/two.py") OSError ∈ wlog (snd walked).
Proof.
  intros walked.
  destruct (failing_file_is_skipped_and_logged Sample.read_file Sample.relpath
              (text "/repos/a") [text "/repos/a/one.py"] []
              (text "/repos/a/two.py") OSError Sample.empty_walk)
    as (H1 & _ & _ & H4); [reflexivity | vm_compute; reflexivity |].
  split; [exact H1 | exact H4].
Defined.

(** ** More on the fallback windows *)

Section ByLinesFacts.

Lemma join_app sep (a b : list str) :
  a ≠ [] → b ≠ [] → join sep (a ++ b) = join sep a ++ sep ++ join sep b.
Proof.
  induction a as [|x a IH]; [done|]. intros _ Hb.
  destruct a as [|y a].
  - simpl. destruct b; [done|]. done.
  - change ((x :: y :: a) ++ b) with (x :: y :: (a ++ b)).
    rewrite !join_cons. change (y :: a ++ b) with ((y :: a) ++ b).
    rewrite IH by done. by rewrite <- !app_assoc.
Qed.

Lemma range_up_elem step stop j :
  ∀ fuel i, j ∈ ByLines.range_up fuel i stop step →
    j < stop ∧ ∃ k, j = i + k * step.
Proof.
  induction fuel as [|f IH]; intros i Hj; simpl in Hj.
  - by apply elem_of_nil in Hj.
  - destruct (i <? stop) eqn:E; [|by apply elem_of_nil in Hj].
    apply Nat.ltb_lt in E. apply elem_of_cons in Hj as [->|Hj].
    + split; [done|]. exists 0. lia.
    + apply IH in Hj as [Hlt [k ->]]. split; [done|]. exists (S k). lia.
Qed.

Lemma slice_lines_no_nl content i j :
  Forall (fun l => nl ∉ l) (slice (split nl content) i j).
Proof.
  apply Forall_forall. intros l Hl%slice_subseteq.
  by eapply (proj1 (Forall_forall _ _) (split_no_sep nl content)).
Qed.

(** A kept window splits back into its lines. *)
Lemma window_lines content m i c :
  c ∈ ByLines.window (split nl content) m i →
  split nl c = slice (split nl content) i (i + m) ∧ has_text c = true.
Proof.
  intros [-> Htext]%elem_of_window. split; [|done].
  apply split_join; [|apply slice_lines_no_nl].
  intros E. by rewrite E in Htext.
Qed.

(** X1: with a positive [max_lines], every chunk that [chunk_by_lines]
    returns has at most [max_lines] lines, its lines are lines of the
    content, and it is not empty after [strip]. *)
Theorem chunk_by_lines_chunks_are_bounded (content : str) (max_lines : positive) :
  ∃ chunks,
    ByLines.chunk_by_lines content (Zpos max_lines) = Ok chunks
    ∧ Forall (fun c =>
                length (split nl c) ≤ Pos.to_nat max_lines
                ∧ (∀ l, l ∈ split nl c → l ∈ split nl content)
                ∧ strip c ≠ []) chunks.
Proof.
  unfold ByLines.chunk_by_lines. simpl. eexists. split; [reflexivity|].
  apply Forall_forall. intros c Hc.
  apply list_elem_of_In, in_flat_map in Hc as (j & _ & Hc).
  apply list_elem_of_In, window_lines in Hc as [Hsplit Htext].
  rewrite Hsplit. split; [|split].
  - rewrite length_slice. lia.
  - intros l. apply slice_subseteq.
  - intros E. rewrite <- truthy_strip in Htext. by rewrite E in Htext.
Qed.

(** The windows, joined again, are the lines from the first start on. *)
Lemma join_windows lines m :
  0 < m →
  ∀ fuel i, i < length lines → length lines ≤ i + fuel * m →
    join [nl] (map (fun j => join [nl] (slice lines j (j + m)))
                 (ByLines.range_up fuel i (length lines) m))
    = join [nl] (skipn i lines).
Proof.
  intros Hm. induction fuel as [|f IH]; intros i Hi Hfuel; [simpl in *; lia|].
  cbn [ByLines.range_up]. apply Nat.ltb_lt in Hi as Hi'. rewrite Hi'.
  cbn [map]. unfold slice at 1. replace (i + m - i) with m by lia.
  destruct (decide (i + m < length lines)) as [Hlt|Hge].
  - destruct f as [|f']; [simpl in *; lia|].
    specialize (IH (i + m) Hlt ltac:(simpl in *; lia)).
    cbn [ByLines.range_up] in *. apply Nat.ltb_lt in Hlt as Hlt'.
    rewrite Hlt' in *. cbn [map] in *. rewrite join_cons, IH.
    assert (join [nl] (drop i lines)
            = join [nl] (take m (drop i lines) ++ drop (i + m) lines)) as ->
      by (by rewrite <- drop_drop, take_drop).
    rewrite join_app; [done| |].
    + intros E. apply (f_equal length) in E.
      rewrite length_take, length_drop in E. simpl in E. lia.
    + intros E. apply (f_equal length) in E.
      rewrite length_drop in E. simpl in E. lia.
  - assert (ByLines.range_up f (i + m) (length lines) m = []) as ->.
    { destruct f; [done|]. simpl.
      destruct (i + m <? length lines) eqn:E; [|done].
      apply Nat.ltb_lt in E. lia. }
    simpl. rewrite firstn_all2; [done|]. rewrite length_drop. lia.
Qed.

Lemma windows_all_kept lines m starts :
  (∀ j, j ∈ starts → has_text (join [nl] (slice lines j (j + m))) = true) →
  flat_map (ByLines.window lines m) starts
  = map (fun j => join [nl] (slice lines j (j + m))) starts.
Proof.
  induction starts as [|j starts IH]; intros H; simpl; [done|].
  rewrite IH by (intros j' Hj'; apply H; by right).
  unfold ByLines.window at 1. rewrite truthy_strip, H by (by left). done.
Qed.

(** X2: when every window of [max_lines] lines holds a character that is
    not white space, no window is dropped and the chunks joined by newlines
    give the content back. *)
Theorem chunk_by_lines_round_trip (content : str) (max_lines : positive) :
  (∀ k, k * Pos.to_nat max_lines < length (split nl content) →
        has_text (join [nl] (slice (split nl content) (k * Pos.to_nat max_lines)
                               (k * Pos.to_nat max_lines + Pos.to_nat max_lines)))
        = true) →
  ∃ chunks,
    ByLines.chunk_by_lines content (Zpos max_lines) = Ok chunks
    ∧ join [nl] chunks = content.
Proof.
  intros Hwin. unfold ByLines.chunk_by_lines. simpl. eexists.
  split; [reflexivity|].
  set (lines := split nl content) in *. set (m := Pos.to_nat max_lines) in *.
  assert (0 < m) as Hm by (unfold m; lia).
  assert (0 < length lines) as Hn.
  { destruct lines eqn:E; [by apply split_not_nil in E | simpl; lia]. }
  rewrite windows_all_kept.
  - rewrite join_windows; [|done|done|nia]. simpl. apply join_split.
  - intros j [Hj [k ->]]%range_up_elem. simpl. apply Hwin. by simpl in Hj.
Qed.

Lemma chunk_by_lines_round_trip_witness :
  ∃ chunks,
    ByLines.chunk_by_lines (unlines ["a"; ""; "b"; "c"; ""; "d"; "e"]) 2
    = Ok chunks
    ∧ join [nl] chunks = unlines ["a"; ""; "b"; "c"; ""; "d"; "e"].
Proof.
  apply (chunk_by_lines_round_trip (unlines ["a"; ""; "b"; "c"; ""; "d"; "e"]) 2).
  intros k Hk. change (Pos.to_nat 2) with 2 in *.
  change (length (split nl (unlines ["a"; ""; "b"; "c"; ""; "d"; "e"]))) with 7 in Hk.
  assert (k = 0 ∨ k = 1 ∨ k = 2 ∨ k = 3) as [->|[->|[->| ->]]] by lia;
    reflexivity.
Defined.

(** X3: a content with text and at most [max_lines] lines comes back as
    the one chunk [content]; through [chunk_code_file] this is every file of
    at most 100 lines whose extension is not a known one. *)
Theorem chunk_by_lines_short_content (content : str) (max_lines : positive) :
  length (split nl content) ≤ Pos.to_nat max_lines →
  has_text content = true →
  ByLines.chunk_by_lines content (Zpos max_lines) = Ok [content].
Proof.
  intros Hlen Htext. unfold ByLines.chunk_by_lines. simpl.
  set (lines := split nl content) in *.
  assert (0 < length lines) as Hn.
  { destruct lines eqn:E; [by apply split_not_nil in E | simpl; lia]. }
  destruct (length lines) as [|n] eqn:En; [lia|].
  cbn [ByLines.range_up Nat.ltb Nat.leb].
  assert (ByLines.range_up n (0 + Pos.to_nat max_lines) (S n) (Pos.to_nat max_lines) = [])
    as ->.
  { destruct n; [done|]. simpl.
    destruct (Pos.to_nat max_lines <? S (S n)) eqn:E; [|done].
    apply Nat.ltb_lt in E. lia. }
  simpl. rewrite app_nil_r. unfold ByLines.window.
  rewrite slice_from_0, firstn_all2 by lia.
  unfold lines. by rewrite join_split, truthy_strip, Htext.
Qed.

Lemma chunk_by_lines_short_content_witness :
  ByLines.chunk_by_lines (unlines ["all:"; "	make it"]) 100
  = Ok [unlines ["all:"; "	make it"]].
Proof.
  apply (chunk_by_lines_short_content (unlines ["all:"; "	make it"]) 100);
    [vm_compute; lia | reflexivity].
Defined.

End ByLinesFacts.

(** ** More on the pattern-based segmenters *)

Section SpanFacts.

Lemma match_here_suffix r must_advance prev s p s' :
  match_here r must_advance prev s = Some (p, s') → s' `suffix_of` s.
Proof.
  unfold match_here. intros H.
  apply rmatch_suffix in H as (p1 & s1 & H & Hs).
  destruct (must_advance && (length s1 =? length s)); [done|].
  by injection H as <- <-.
Qed.

(** A found match lies at or after the offset searched from and inside the
    text; the position after it is the text from its end on. *)
Lemma search_bounds r :
  ∀ s must_advance prev i m,
    search r must_advance prev s i = Some m →
    i ≤ m_start m ∧ m_start m ≤ m_end m
    ∧ m_end m + length (snd (m_next m)) = i + length s.
Proof.
  induction s as [|c t IH]; intros ma prev i m H; simpl in H.
  - destruct (match_here r ma prev []) as [[p s']|] eqn:E; [|done].
    injection H as <-. apply match_here_suffix in E as [pre E].
    destruct pre; [|done]. simpl in E. subst s'. simpl. lia.
  - destruct (match_here r ma prev (c :: t)) as [[p s']|] eqn:E.
    + injection H as <-. apply match_here_suffix in E as [pre E].
      apply (f_equal length) in E. rewrite length_app in E.
      cbn [m_start m_end m_next snd]. cbn [length] in *. lia.
    + apply IH in H. simpl. lia.
Qed.

Lemma scan_in_order r n :
  ∀ fuel must_advance prev s i,
    i + length s = n →
    spans_in_order i n (scan fuel r must_advance prev s i).
Proof.
  induction fuel as [|f IH]; intros ma prev s i Hn; simpl; [done|].
  destruct (search r ma prev s i) as [m|] eqn:E; [|done].
  apply search_bounds in E as (H1 & H2 & H3).
  cbn [spans_in_order]. repeat split; [done | done | lia |].
  apply IH. lia.
Qed.

(** The spans of [re.finditer] come in order, without overlap, inside the
    text. *)
Lemma finditer_in_order r s : spans_in_order 0 (length s) (finditer r s).
Proof. unfold finditer. by apply scan_in_order. Qed.

Lemma spans_in_order_weaken lo lo' n l :
  lo' ≤ lo → spans_in_order lo n l → spans_in_order lo' n l.
Proof. destruct l as [|[a b] l]; simpl; [done|]. intros ? (?&?&?&?). repeat split; [lia|done..]. Qed.

Lemma spans_in_order_bounds lo n l :
  spans_in_order lo n l → Forall (fun c => lo ≤ fst c ∧ fst c ≤ snd c ∧ snd c ≤ n) l.
Proof.
  revert lo. induction l as [|[a b] l IH]; intros lo H; [constructor|].
  destruct H as (H1 & H2 & H3 & H4). constructor; [done|].
  apply IH in H4. eapply Forall_impl; [exact H4|]. simpl. intros c ?. lia.
Qed.

(** Sorting spans that are in order changes nothing. *)
Lemma sorted_in_order lo n l : spans_in_order lo n l → sorted l = l.
Proof.
  revert lo. induction l as [|[a b] l IH]; intros lo H; [done|].
  destruct H as (H1 & H2 & H3 & H4).
  unfold sorted in *. cbn [foldr]. rewrite (IH b H4).
  destruct l as [|[c d] l]; [done|].
  destruct H4 as (H5 & H6 & _). cbn [insert_sorted].
  assert (span_le (a, b) (c, d) = true) as ->; [|done].
  unfold span_le. simpl.
  destruct (decide (a < c)) as [Hlt|Hge].
  - apply Nat.ltb_lt in Hlt. by rewrite Hlt.
  - assert (a = c) as -> by lia.
    rewrite Nat.eqb_refl. apply orb_true_iff. right.
    apply andb_true_iff. split; [done|]. apply Nat.leb_le. lia.
Qed.

Lemma sorted_disjoint_in_order lo n l :
  spans_in_order lo n l → sorted_disjoint l = true.
Proof.
  revert lo. induction l as [|[a b] l IH]; intros lo H; [done|].
  destruct H as (H1 & H2 & H3 & H4).
  destruct l as [|[c d] l]; [done|].
  cbn [sorted_disjoint]. apply andb_true_iff. split.
  - destruct H4 as (H5 & _). apply Nat.leb_le. simpl. lia.
  - by eapply IH.
Qed.

(** X4: the class spans that [chunk_c_style_file] and
    [chunk_javascript_file] record are already in increasing order, pairwise
    disjoint and inside the content, so [sorted(class_positions)] is
    [class_positions] itself. *)
Theorem class_positions_are_in_order (content : str) :
  (spans_in_order 0 (length content) (CStyle.class_positions content)
   ∧ sorted_disjoint (CStyle.class_positions content) = true
   ∧ sorted (CStyle.class_positions content) = CStyle.class_positions content)
  ∧ (spans_in_order 0 (length content) (JavaScript.class_positions content)
     ∧ sorted_disjoint (JavaScript.class_positions content) = true
     ∧ sorted (JavaScript.class_positions content)
       = JavaScript.class_positions content).
Proof.
  split.
  - pose proof (finditer_in_order CStyle.class_pattern content) as H.
    split; [exact H|]. split; [by eapply sorted_disjoint_in_order
                              | by eapply sorted_in_order].
  - pose proof (finditer_in_order JavaScript.class_pattern content) as H.
    split; [exact H|]. split; [by eapply sorted_disjoint_in_order
                              | by eapply sorted_in_order].
Qed.

Lemma subtract_within n ranges cls :
  fst cls ≤ snd cls → snd cls ≤ n →
  Forall (fun r => fst r ≤ snd r ∧ snd r ≤ n) ranges →
  Forall (fun r => fst r ≤ snd r ∧ snd r ≤ n) (subtract ranges cls).
Proof.
  destruct cls as [s e]. simpl. intros Hse Hen H.
  unfold subtract. apply Forall_forall. intros [a b] Hab.
  apply list_elem_of_In, in_flat_map in Hab as ([rs re] & Hin & Hab).
  apply list_elem_of_In in Hin.
  apply (proj1 (Forall_forall _ _) H) in Hin. simpl in Hin.
  apply list_elem_of_In, elem_of_app in Hab as [Hab|Hab].
  - destruct (rs <? s) eqn:E; [|by apply elem_of_nil in Hab].
    apply Nat.ltb_lt in E. apply list_elem_of_singleton in Hab as [= -> ->].
    simpl. lia.
  - destruct (e <? re) eqn:E; [|by apply elem_of_nil in Hab].
    apply Nat.ltb_lt in E. apply list_elem_of_singleton in Hab as [= -> ->].
    simpl. lia.
Qed.

Lemma subtract_avoids ranges cls : avoids (subtract ranges cls) [cls] = true.
Proof.
  destruct cls as [s e]. unfold avoids, subtract.
  apply forallb_forall. intros [a b] Hab.
  apply in_flat_map in Hab as ([rs re] & _ & Hab).
  simpl. rewrite andb_true_r. apply negb_true_iff. unfold overlaps. simpl.
  apply in_app_or in Hab as [Hab|Hab].
  - destruct (rs <? s); [|done]. destruct Hab as [[= -> ->]|[]].
    by rewrite Nat.ltb_irrefl, !andb_false_r.
  - destruct (e <? re); [|done]. destruct Hab as [[= -> ->]|[]].
    by rewrite Nat.ltb_irrefl.
Qed.

Lemma foldl_subtract_within n classes :
  Forall (fun c => fst c ≤ snd c ∧ snd c ≤ n) classes →
  ∀ ranges, Forall (fun r => fst r ≤ snd r ∧ snd r ≤ n) ranges →
    Forall (fun r => fst r ≤ snd r ∧ snd r ≤ n) (foldl subtract ranges classes).
Proof.
  induction classes as [|c classes IH]; intros Hc ranges Hr; simpl; [done|].
  inversion Hc as [|?? [H1 H2] Hrest]; subst.
  apply IH; [done|]. by apply subtract_within.
Qed.

(** What holds of the uncovered ranges for spans in order: every range
    lies inside the content, and none reaches into the last class. *)
Lemma uncovered_ranges_in_order content classes :
  spans_in_order 0 (length content) classes →
  Forall (fun r => fst r ≤ snd r ∧ snd r ≤ length content)
    (uncovered_ranges content classes)
  ∧ ∀ cls, last classes = Some cls →
      avoids (uncovered_ranges content classes) [cls] = true.
Proof.
  intros H. unfold uncovered_ranges. rewrite (sorted_in_order _ _ _ H). split.
  - apply foldl_subtract_within.
    + apply spans_in_order_bounds in H.
      eapply Forall_impl; [exact H|]. simpl. intros c ?. lia.
    + constructor; [simpl; lia | constructor].
  - intros cls Hlast. apply last_Some in Hlast as [front ->].
    rewrite foldl_app. simpl. apply subtract_avoids.
Qed.

(** X5: in [chunk_c_style_file] and [chunk_javascript_file] every uncovered
    range [(start, end)] has [start <= end <= len(content)], and no uncovered
    range shares a position with the last class found. *)
Theorem uncovered_ranges_inside_and_clear_of_last_class (content : str) :
  (Forall (fun r => fst r ≤ snd r ∧ snd r ≤ length content)
     (uncovered_ranges content (CStyle.class_positions content))
   ∧ ∀ cls, last (CStyle.class_positions content) = Some cls →
       avoids (uncovered_ranges content (CStyle.class_positions content)) [cls]
       = true)
  ∧ (Forall (fun r => fst r ≤ snd r ∧ snd r ≤ length content)
       (uncovered_ranges content (JavaScript.class_positions content))
     ∧ ∀ cls, last (JavaScript.class_positions content) = Some cls →
         avoids (uncovered_ranges content (JavaScript.class_positions content))
           [cls] = true).
Proof.
  split; apply uncovered_ranges_in_order, finditer_in_order.
Qed.

End SpanFacts.

Lemma uncovered_ranges_inside_witness :
  avoids
    (uncovered_ranges (unlines ["x"; "class A {"; "}"; "y"; "class B {"; "}"; "z"])
       (CStyle.class_positions
          (unlines ["x"; "class A {"; "}"; "y"; "class B {"; "}"; "z"])))
    [(15, 27)] = true.
Proof.
  destruct (uncovered_ranges_inside_and_clear_of_last_class
              (unlines ["x"; "class A {"; "}"; "y"; "class B {"; "}"; "z"]))
    as [[_ H] _].
  apply H. vm_compute. reflexivity.
Defined.

Section ChunkFacts.

Lemma brace_family_chunks classes others imports content c :
  (∀ x, x ∈ classes → is_infix x content) →
  (∀ x, x ∈ others → is_infix x content) →
  c ∈ whole_file_if_few (classes ++ others ++ import_chunk imports) content →
  is_infix c content ∨ (imports ≠ [] ∧ c = join [nl] imports).
Proof.
  intros Hcls Hoth. unfold whole_file_if_few.
  destruct (length _ <=? 1).
  - intros ->%list_elem_of_singleton. left. apply is_infix_refl.
  - intros [Hc|[Hc|Hc]%elem_of_app]%elem_of_app.
    + left. by apply Hcls.
    + left. by apply Hoth.
    + right. destruct imports as [|i imports]; [by apply elem_of_nil in Hc|].
      apply list_elem_of_singleton in Hc. by split.
Qed.

(** X6: every chunk returned by [chunk_c_style_file] or
    [chunk_javascript_file] is a contiguous piece of the content, copied
    unchanged, except the last chunk when imports were found: that one is
    the matched import statements, each a piece of the content, joined by
    newlines. *)
Theorem brace_family_chunks_are_verbatim (content c : str) :
  (c ∈ CStyle.chunk_c_style_file content →
   is_infix c content
   ∨ (finditer_text CStyle.import_pattern content ≠ []
      ∧ c = join [nl] (finditer_text CStyle.import_pattern content)
      ∧ ∀ i, i ∈ finditer_text CStyle.import_pattern content → is_infix i content))
  ∧ (c ∈ JavaScript.chunk_javascript_file content →
     is_infix c content
     ∨ (finditer_text JavaScript.import_pattern content ≠ []
        ∧ c = join [nl] (finditer_text JavaScript.import_pattern content)
        ∧ ∀ i, i ∈ finditer_text JavaScript.import_pattern content →
            is_infix i content)).
Proof.
  split; intros Hc.
  - unfold CStyle.chunk_c_style_file in Hc. rewrite <- app_assoc in Hc.
    apply brace_family_chunks in Hc as [Hc|[Hne Hc]].
    + by left.
    + right. split; [done|]. split; [done|]. apply finditer_text_is_infix.
    + apply finditer_text_is_infix.
    + apply extract_uncovered_is_infix.
  - unfold JavaScript.chunk_javascript_file in Hc. rewrite <- app_assoc in Hc.
    apply brace_family_chunks in Hc as [Hc|[Hne Hc]].
    + by left.
    + right. split; [done|]. split; [done|]. apply finditer_text_is_infix.
    + apply finditer_text_is_infix.
    + apply extract_uncovered_is_infix.
Qed.

Lemma brace_family_chunks_witness :
  is_infix (unlines [""; "class A {"; "}"])
    (unlines ["import a;"; "class A {"; "}"; "int x;"])
  ∨ (finditer_text CStyle.import_pattern
       (unlines ["import a;"; "class A {"; "}"; "int x;"]) ≠ []
     ∧ unlines [""; "class A {"; "}"]
       = join [nl] (finditer_text CStyle.import_pattern
                      (unlines ["import a;"; "class A {"; "}"; "int x;"]))
     ∧ ∀ i, i ∈ finditer_text CStyle.import_pattern
                  (unlines ["import a;"; "class A {"; "}"; "int x;"]) →
         is_infix i (unlines ["import a;"; "class A {"; "}"; "int x;"])).
Proof.
  destruct (brace_family_chunks_are_verbatim
              (unlines ["import a;"; "class A {"; "}"; "int x;"])
              (unlines [""; "class A {"; "}"])) as [H _].
  apply H. vm_compute. by left.
Defined.

(** Once the module-level loop of [chunk_python_file] has a chunk under
    way, it takes every further line. *)
Lemma module_level_started lines current_chunk :
  current_chunk ≠ [] →
  Python.module_level lines current_chunk = current_chunk ++ lines.
Proof.
  revert current_chunk. induction lines as [|l lines IH]; intros cur Hcur;
    cbn [Python.module_level].
  - by rewrite app_nil_r.
  - assert (cur ++ [l] ≠ []) as Hne by (by destruct cur).
    destruct (truthy (strip l) && negb (startswith (text " ") l)).
    + rewrite IH by done. by rewrite <- app_assoc.
    + destruct cur as [|c cur]; [done|]. cbn [length Nat.eqb negb].
      rewrite IH by done. by rewrite <- app_assoc.
Qed.

(** X7: the module-level lines that [chunk_python_file] gathers are the
    lines of the working copy from the first line that has text and does not
    start with a space, through the last line; the lines before it (blank or
    starting with a space) are left out, and nothing after it is. *)
Theorem module_level_is_the_tail_from_first_top_level_line (lines : list str) :
  ∃ skipped,
    lines = skipped ++ Python.module_level lines []
    ∧ Forall (fun l => top_level l = false) skipped
    ∧ (∀ l rest, Python.module_level lines [] = l :: rest → top_level l = true).
Proof.
  induction lines as [|l lines IH].
  - exists []. repeat split; [constructor | done].
  - cbn [Python.module_level]. fold (top_level l).
    destruct (top_level l) eqn:E.
    + exists []. rewrite module_level_started by done. simpl.
      repeat split; [constructor|]. by intros ?? [= <- _].
    + simpl. destruct IH as (skipped & Hl & Hsk & Hhd).
      exists (l :: skipped). split; [by rewrite Hl at 1|].
      split; [by constructor | done].
Qed.

End ChunkFacts.

(** ** More on the walker and the indexing loop *)

Section WalkerFacts.

Variable read_file : str → outcome str.
Variable relpath : str → str → outcome str.

(** X8: a file whose path contains an excluded directory name anywhere
    (as a substring of the whole path) is passed over: the walk with it is
    the walk without it, whatever the file holds; it is not read and nothing
    is logged for it. *)
Theorem excluded_file_is_passed_over
  (repo_path : str) (before after : list str) (path : str) (w : walk) :
  excluded path = true →
  Indexer.walk_files read_file relpath repo_path (before ++ path :: after) w
  = Indexer.walk_files read_file relpath repo_path (before ++ after) w.
Proof.
  intros Hex.
  assert (Indexer.file_effect read_file relpath repo_path path = ([], [], []))
    as Heff by (unfold Indexer.file_effect; by rewrite Hex).
  rewrite !walk_files_spec, !flat_map_app. cbn [flat_map]. by rewrite Heff.
Qed.

End WalkerFacts.

Lemma excluded_file_witness :
  Indexer.walk_files Sample.read_file Sample.relpath (text "/repos/a")
    ([text "/repos/a/one.py"] ++ text "/repos/a/distance.py" :: []) Sample.empty_walk
  = Indexer.walk_files Sample.read_file Sample.relpath (text "/repos/a")
      ([text "/repos/a/one.py"] ++ []) Sample.empty_walk.
Proof.
  apply (excluded_file_is_passed_over Sample.read_file Sample.relpath).
  reflexivity.
Defined.

Section IndexingFacts.

Variable glob : str → list str.
Variable read_file : str → outcome str.
Variable relpath : str → str → outcome str.
Variable embedding : Type.
Variable encode : list str → list embedding.

Local Abbreviation file_effect := (Indexer.file_effect read_file relpath).
Local Abbreviation client := (Indexer.client embedding).
Local Abbreviation point := (Indexer.point embedding).
Local Abbreviation process_repository :=
  (Indexer.process_repository glob read_file relpath embedding encode).
Local Abbreviation index_repositories :=
  (Indexer.index_repositories glob read_file relpath embedding encode).
Local Abbreviation chunks_of := (repository_chunks glob read_file relpath).
Local Abbreviation metadata_of := (repository_metadata glob read_file relpath).

Lemma store_points_cons (m : gmap nat point) p points :
  store_points embedding m (p :: points)
  = store_points embedding (<[id embedding p := p]> m) points.
Proof. done. Qed.

Lemma store_points_is_Some (m : gmap nat point) points k :
  is_Some (m !! k) → is_Some (store_points embedding m points !! k).
Proof.
  revert m. induction points as [|p points IH]; intros m Hk; [done|].
  rewrite store_points_cons. apply IH, lookup_insert_is_Some.
  destruct (decide (id embedding p = k)); [by left | by right].
Qed.

(** Points with the ids [i, i+1, ...] land under their ids and leave every
    other id as it was. *)
Lemma store_points_lookup points :
  ∀ i (m : gmap nat point),
    map (id embedding) points = seq i (length points) →
    ∀ k, store_points embedding m points !! k
         = if decide (i ≤ k < i + length points) then points !! (k - i)
           else m !! k.
Proof.
  induction points as [|p points IH]; intros i m Hids k.
  - simpl. destruct (decide _); [lia | done].
  - rewrite store_points_cons. simpl in Hids. injection Hids as Hp Hids.
    rewrite (IH (S i) _ Hids). cbn [length].
    destruct (decide (S i ≤ k < S i + length points)) as [Hk|Hk].
    + rewrite decide_True by lia.
      replace (k - i) with (S (k - S i)) by lia. done.
    + destruct (decide (k = i)) as [->|Hne].
      * rewrite decide_True by lia. rewrite Nat.sub_diag. simpl.
        rewrite <- Hp. apply lookup_insert_eq.
      * rewrite decide_False by lia. rewrite lookup_insert_ne by lia. done.
Qed.

(** The comprehension over [enumerate(embeddings)], with the texts and the
    metadata its points carry. *)
Lemma batch_points_full (batch_chunks : list str) (batch_metadata : list metadata)
  (i : nat) (c : client) :
  ∀ (embeddings : list embedding) (k : nat),
    k + length embeddings ≤ length batch_chunks →
    k + length embeddings ≤ length batch_metadata →
    ∃ points,
      comprehension (imap (fun j emb => (k + j, emb)) embeddings)
        (fun '(j, emb) =>
           bind (index batch_chunks j) (fun t =>
           bind (index batch_metadata j) (fun md =>
           ret {| id := i + j; vector := emb; payload_text := t;
                  payload := md |}))) c
      = (Ok points, c)
      ∧ map (id embedding) points = seq (i + k) (length embeddings)
      ∧ map (payload_text embedding) points
        = take (length embeddings) (drop k batch_chunks)
      ∧ map (payload embedding) points
        = take (length embeddings) (drop k batch_metadata).
Proof.
  induction embeddings as [|emb embeddings IH]; intros k Hc Hm.
  - by exists [].
  - simpl in Hc, Hm.
    destruct (IH (S k)) as (points & Hpoints & Hids & Htexts & Hmds); [lia | lia |].
    destruct (lookup_lt_is_Some_2 batch_chunks k) as [t Ht]; [lia|].
    destruct (lookup_lt_is_Some_2 batch_metadata k) as [md Hmd]; [lia|].
    exists ({| id := i + k; vector := emb; payload_text := t; payload := md |}
            :: points).
    rewrite imap_cons. cbn [comprehension].
    rewrite (imap_ext _ (fun j emb => (S k + j, emb)))
      by (intros j x _; simpl; f_equal; lia).
    unfold bind at 1. unfold bind at 1. unfold index at 1, lift at 1.
    rewrite Nat.add_0_r, Ht. unfold bind at 1. unfold index at 1, lift at 1.
    rewrite Hmd. unfold ret at 1. unfold bind at 1. rewrite Hpoints.
    unfold ret. split; [reflexivity|].
    cbn [map id payload_text payload length].
    rewrite Hids, Htexts, Hmds, (drop_S _ _ _ Ht), (drop_S _ _ _ Hmd).
    split; [simpl; do 2 f_equal; lia | done].
Qed.

Section OneRowPerText.

Hypothesis encode_rows : ∀ batch, length (encode batch) = length batch.

Lemma index_batch_full chunks mds i (c : client) :
  length mds = length chunks →
  ∃ points E,
    index_batch embedding encode chunks mds i c
    = (Ok tt, client_add embedding [points] E c)
    ∧ map (id embedding) points = seq i (length points)
    ∧ map (payload_text embedding) points = slice chunks i (i + batch_size)
    ∧ map (payload embedding) points = slice mds i (i + batch_size).
Proof using Type encode_rows.
  intros Hlen. unfold index_batch.
  destruct (batch_points_full (slice chunks i (i + batch_size))
              (slice mds i (i + batch_size)) i c
              (encode (slice chunks i (i + batch_size))) 0)
    as (points & Hpoints & Hids & Htexts & Hmds).
  { rewrite encode_rows. simpl. lia. }
  { rewrite encode_rows, !length_slice, Hlen. simpl. lia. }
  rewrite encode_rows in Hids, Htexts, Hmds.
  rewrite drop_0, firstn_all in Htexts.
  rewrite drop_0, take_ge in Hmds by (rewrite !length_slice, Hlen; lia).
  exists points. eexists. split; [|split; [|done]].
  - unfold enumerate. unfold bind at 1.
    rewrite (imap_ext _ (fun j emb => (0 + j, emb))) by done.
    rewrite Hpoints. unfold bind, upsert, log_client, modify, client_add. simpl.
    reflexivity.
  - rewrite Hids, Nat.add_0_r. f_equal.
    by rewrite <- (length_map (payload_text embedding) points), Htexts.
Qed.

Lemma batches_full chunks mds :
  length mds = length chunks →
  ∀ fuel i (c : client),
    i ≤ length chunks → length chunks ≤ i + fuel * batch_size →
    ∃ B E,
      for_each (ByLines.range_up fuel i (length chunks) batch_size)
        (index_batch embedding encode chunks mds) c
      = (Ok tt, client_add embedding B E c)
      ∧ map (id embedding) (concat B) = seq i (length chunks - i)
      ∧ map (payload_text embedding) (concat B) = drop i chunks
      ∧ map (payload embedding) (concat B) = drop i mds
      ∧ Forall (fun b => 0 < length b ≤ batch_size) B.
Proof using Type encode_rows.
  intros Hlen. induction fuel as [|f IH]; intros i c Hi Hfuel.
  - simpl in Hfuel. assert (i = length chunks) as -> by lia.
    exists [], []. rewrite client_add_nil, Nat.sub_diag.
    rewrite drop_all, <- Hlen, drop_all. by repeat split.
  - cbn [ByLines.range_up]. destruct (i <? length chunks) eqn:E.
    + apply Nat.ltb_lt in E.
      destruct (index_batch_full chunks mds i c Hlen)
        as (points & E1 & Hb & Hids & Htexts & Hmds).
      assert (length points = batch_size `min` (length chunks - i)) as Hpl.
      { rewrite <- (length_map (payload_text embedding) points), Htexts,
          length_slice. lia. }
      assert (0 < length points ≤ batch_size) as Hsize
        by (unfold batch_size in *; lia).
      unfold slice in Htexts, Hmds.
      replace (i + batch_size - i) with batch_size in Htexts, Hmds by lia.
      destruct (decide (i + batch_size ≤ length chunks)) as [Hle|Hgt].
      * destruct (IH (i + batch_size) (client_add embedding [points] E1 c))
          as (B & E2 & Hrest & Hids2 & Htexts2 & Hmds2 & Hsizes); [lia | lia |].
        exists ([points] ++ B), (E1 ++ E2). split; [|split; [|split; [|split]]].
        -- cbn [for_each]. unfold bind. by rewrite Hb, Hrest, client_add_add.
        -- simpl. rewrite map_app, Hids, Hids2, Hpl.
           replace (batch_size `min` (length chunks - i)) with batch_size by lia.
           replace (length chunks - i)
             with (batch_size + (length chunks - (i + batch_size))) by lia.
           by rewrite seq_app.
        -- simpl. rewrite map_app, Htexts, Htexts2.
           by rewrite <- drop_drop, take_drop.
        -- simpl. rewrite map_app, Hmds, Hmds2.
           by rewrite <- drop_drop, take_drop.
        -- by constructor.
      * exists [points], E1. split; [|split; [|split; [|split]]].
        -- cbn [for_each]. unfold bind. rewrite Hb.
           destruct f as [|f']; simpl; [done|].
           destruct (i + batch_size <? length chunks) eqn:E'; [|done].
           apply Nat.ltb_lt in E'. lia.
        -- simpl. rewrite app_nil_r, Hids, Hpl. f_equal. lia.
        -- simpl. rewrite app_nil_r, Htexts.
           apply take_ge. rewrite length_drop. lia.
        -- simpl. rewrite app_nil_r, Hmds.
           apply take_ge. rewrite length_drop. lia.
        -- constructor; [done | constructor].
    + apply Nat.ltb_ge in E. assert (i = length chunks) as -> by lia.
      exists [], []. rewrite client_add_nil, Nat.sub_diag.
      rewrite drop_all, <- Hlen, drop_all. by repeat split.
Qed.

(** One call of [process_repository]: it returns, and what it hands to
    [upsert] is the chunks of the walk, in order, under the ids from 0. *)
Lemma process_repository_full repo_path (c : client) :
  ∃ c' B,
    process_repository repo_path c = (Ok tt, c')
    ∧ collection embedding c'
      = foldl (store_points embedding) (collection embedding c) B
    ∧ upserts embedding c' = upserts embedding c ++ B
    ∧ map (id embedding) (concat B) = seq 0 (length (chunks_of repo_path))
    ∧ map (payload_text embedding) (concat B) = chunks_of repo_path
    ∧ map (payload embedding) (concat B) = metadata_of repo_path
    ∧ Forall (fun b => 0 < length b ≤ batch_size) B.
Proof using Type encode_rows.
  unfold Indexer.process_repository, repository_chunks, repository_metadata,
    repository_files.
  set (code_files := flat_map _ code_extensions).
  pose proof (file_effect_lengths read_file relpath repo_path code_files) as Hlen.
  unfold bind at 1. unfold log_client at 1, modify at 1.
  unfold bind at 1. unfold log_client at 1, modify at 1.
  rewrite walk_files_spec.
  cbn [walk_add all_chunks file_metadata wlog app collection upserts log].
  revert Hlen.
  generalize (flat_map (fun f => (file_effect repo_path f).1.1) code_files).
  generalize (flat_map (fun f => (file_effect repo_path f).1.2) code_files).
  intros Y X Hlen.
  match goal with |- context [log_client _ LogNoChunks ?c0] => set (c1 := c0) end.
  destruct (batches_full X Y Hlen (length X) 0 c1)
    as (B & E & Hloop & Hids & Htexts & Hmds & Hsizes);
    [lia | unfold batch_size; lia |].
  rewrite Nat.sub_0_r in Hids. rewrite drop_0 in Htexts. rewrite drop_0 in Hmds.
  destruct X as [|x X'].
  - destruct Y; [|done]. eexists. exists []. split; [reflexivity|].
    simpl. rewrite app_nil_r. by repeat split.
  - rewrite Hloop. eexists. exists B. split; [reflexivity|]. by repeat split.
Qed.

(** X9: with an embedding model that returns one row per text, one call of
    [process_repository] does not raise; its [upsert] calls carry between 1
    and 32 points each, and together they carry the chunks of the walk in
    order: the k-th chunk, with its metadata, under the id k. *)
Theorem process_repository_upserts_the_chunks_in_order repo_path (c : client) :
  ∃ c' batches,
    process_repository repo_path c = (Ok tt, c')
    ∧ upserts embedding c' = upserts embedding c ++ batches
    ∧ Forall (fun b => 0 < length b ≤ batch_size) batches
    ∧ map (id embedding) (concat batches) = seq 0 (length (chunks_of repo_path))
    ∧ map (payload_text embedding) (concat batches) = chunks_of repo_path
    ∧ map (payload embedding) (concat batches) = metadata_of repo_path.
Proof using Type encode_rows.
  destruct (process_repository_full repo_path c)
    as (c' & B & H & _ & Hup & Hids & Htexts & Hmds & Hsizes).
  by exists c', B.
Qed.

(** X10: with an embedding model that returns one row per text, after one
    call of [process_repository] over [n] chunks the collection holds, under
    every id [k < n], a point with the k-th chunk and its metadata, whatever
    was stored there before; every id from [n] on holds what it held before
    the call (entries of an earlier, larger run stay in the store). *)
Theorem process_repository_store_afterwards repo_path (c : client) :
  ∃ c',
    process_repository repo_path c = (Ok tt, c')
    ∧ ∀ k,
        (k < length (chunks_of repo_path) →
         ∃ p, collection embedding c' !! k = Some p
              ∧ id embedding p = k
              ∧ chunks_of repo_path !! k = Some (payload_text embedding p)
              ∧ metadata_of repo_path !! k = Some (payload embedding p))
        ∧ (length (chunks_of repo_path) ≤ k →
           collection embedding c' !! k = collection embedding c !! k).
Proof using Type encode_rows.
  destruct (process_repository_full repo_path c)
    as (c' & B & H & Hcol & _ & Hids & Htexts & Hmds & _).
  exists c'. split; [done|]. intros k.
  assert (length (concat B) = length (chunks_of repo_path)) as Hlen
    by (by rewrite <- Htexts, length_map).
  rewrite <- Hlen in Hids.
  rewrite Hcol, store_points_concat, (store_points_lookup _ 0 _ Hids).
  rewrite Nat.sub_0_r. split.
  - intros Hk. rewrite decide_True by lia.
    destruct (lookup_lt_is_Some_2 (concat B) k) as [p Hp]; [lia|].
    exists p. split; [done|]. split; [|split].
    + apply (f_equal (fun l => l !! k)) in Hids.
      rewrite list_lookup_fmap, Hp, lookup_seq_lt in Hids by lia.
      simpl in Hids. by injection Hids.
    + by rewrite <- Htexts, list_lookup_fmap, Hp.
    + by rewrite <- Hmds, list_lookup_fmap, Hp.
  - intros Hk. by rewrite decide_False by lia.
Qed.

(** X11: with an embedding model that returns one row per text, a run over
    several repositories does not raise, and the ids it hands to [upsert]
    are, repository after repository, [0 .. n-1] for the [n] chunks of that
    repository. *)
Theorem index_repositories_ids (repositories : list str) (c : client) :
  ∃ c',
    index_repositories repositories c = (Ok tt, c')
    ∧ upserted_ids embedding c'
      = upserted_ids embedding c
        ++ flat_map (fun repo_path => seq 0 (length (chunks_of repo_path)))
             repositories.
Proof using Type encode_rows.
  unfold Indexer.index_repositories. revert c.
  induction repositories as [|repo repositories IH]; intros c.
  - exists c. split; [done|]. simpl. by rewrite app_nil_r.
  - destruct (process_repository_full repo c)
      as (c1 & B & H & _ & Hup & Hids & _).
    destruct (IH c1) as (c' & Hrest & Hids').
    exists c'. cbn [for_each flat_map]. unfold bind at 1. rewrite H.
    split; [done|]. rewrite Hids'. unfold upserted_ids.
    by rewrite Hup, concat_app, map_app, Hids, <- app_assoc.
Qed.

End OneRowPerText.

Lemma client_add_grows B E (c : client) k :
  is_Some (collection embedding c !! k) →
  is_Some (collection embedding (client_add embedding B E c) !! k).
Proof.
  unfold client_add. simpl. rewrite store_points_concat.
  apply store_points_is_Some.
Qed.

(** X12: a run of the indexing loop only adds to the store: every id
    stored before the run is still stored after it, and the earlier [upsert]
    calls and log entries are kept in front of the new ones; this holds also
    when the run raises part-way. *)
Theorem index_repositories_never_removes (repositories : list str) (c : client) :
  let c' := snd (index_repositories repositories c) in
  (∀ k, is_Some (collection embedding c !! k) →
        is_Some (collection embedding c' !! k))
  ∧ upserts embedding c `prefix_of` upserts embedding c'
  ∧ log embedding c `prefix_of` log embedding c'.
Proof.
  destruct (uniform_index_repositories glob read_file relpath embedding encode
              repositories) as (o & B & E & H).
  simpl. rewrite H. simpl. split; [|split].
  - intros k. apply (client_add_grows B E c).
  - by exists B.
  - by exists E.
Qed.

End IndexingFacts.

Lemma sample_encode_rows batch : length (Sample.encode batch) = length batch.
Proof. unfold Sample.encode. apply length_map. Qed.

Lemma process_repository_upserts_witness :
  ∃ c' batches,
    Indexer.process_repository Sample.glob Sample.read_file Sample.relpath nat
      Sample.encode (text "/repos/a") Sample.empty_client = (Ok tt, c')
    ∧ upserts nat c' = upserts nat Sample.empty_client ++ batches
    ∧ Forall (fun b => 0 < length b ≤ batch_size) batches
    ∧ map (id nat) (concat batches)
      = seq 0 (length (repository_chunks Sample.glob Sample.read_file
                         Sample.relpath (text "/repos/a")))
    ∧ map (payload_text nat) (concat batches)
      = repository_chunks Sample.glob Sample.read_file Sample.relpath
          (text "/repos/a")
    ∧ map (payload nat) (concat batches)
      = repository_metadata Sample.glob Sample.read_file Sample.relpath
          (text "/repos/a").
Proof.
  exact (process_repository_upserts_the_chunks_in_order Sample.glob
           Sample.read_file Sample.relpath nat Sample.encode sample_encode_rows
           (text "/repos/a") Sample.empty_client).
Defined.

Lemma process_repository_store_witness :
  ∃ c',
    Indexer.process_repository Sample.glob Sample.read_file Sample.relpath nat
      Sample.encode (text "/repos/a") Sample.empty_client = (Ok tt, c')
    ∧ ∀ k,
        (k < length (repository_chunks Sample.glob Sample.read_file
                       Sample.relpath (text "/repos/a")) →
         ∃ p, collection nat c' !! k = Some p
              ∧ id nat p = k
              ∧ repository_chunks Sample.glob Sample.read_file Sample.relpath
                  (text "/repos/a") !! k = Some (payload_text nat p)
              ∧ repository_metadata Sample.glob Sample.read_file Sample.relpath
                  (text "/repos/a") !! k = Some (payload nat p))
        ∧ (length (repository_chunks Sample.glob Sample.read_file
                     Sample.relpath (text "/repos/a")) ≤ k →
           collection nat c' !! k = collection nat Sample.empty_client !! k).
Proof.
  exact (process_repository_store_afterwards Sample.glob Sample.read_file
           Sample.relpath nat Sample.encode sample_encode_rows
           (text "/repos/a") Sample.empty_client).
Defined.

Lemma index_repositories_ids_witness :
  ∃ c',
    Sample.index_repositories ["/repos/a"; "/repos/b"] Sample.empty_client
    = (Ok tt, c')
    ∧ upserted_ids nat c'
      = upserted_ids nat Sample.empty_client
        ++ flat_map
             (fun repo_path =>
                seq 0 (length (repository_chunks Sample.glob Sample.read_file
                                 Sample.relpath repo_path)))
             (map text ["/repos/a"; "/repos/b"]).
Proof.
  exact (index_repositories_ids Sample.glob Sample.read_file Sample.relpath nat
           Sample.encode sample_encode_rows (map text ["/repos/a"; "/repos/b"])
           Sample.empty_client).
Defined.

(** ** Loading the configuration *)

Section ConfigFacts.

Import Config.

(** Comparisons of two key literals, computed. *)
Ltac eqs_const :=
  repeat match goal with
  | |- context [eqs (text ?a) (text ?b)] =>
      let v := eval vm_compute in (eqs (text a) (text b)) in
      change (eqs (text a) (text b)) with v
  end.

Lemma get_app k d d' :
  get k (d ++ d') = match get k d with Some v => Some v | None => get k d' end.
Proof.
  induction d as [|[k' v'] d IH]; simpl; [done|]. by destruct (eqs k k').
Qed.

Lemma eqs_refl k : eqs k k = true.
Proof. by apply eqs_eq. Qed.

Lemma eqs_neq k k' : k ≠ k' → eqs k k' = false.
Proof. intros H. destruct (eqs k k') eqn:E; [|done]. by apply eqs_eq in E. Qed.

(** After [setdefault(k, v)], [k] holds what it held, or [v] if it held
    nothing; other keys are as before. *)
Lemma get_setdefault k v d k' :
  get k' (setdefault k v d) =
    if eqs k' k then Some (default v (get k d)) else get k' d.
Proof.
  unfold setdefault. destruct (get k d) as [x|] eqn:E.
  - destruct (eqs k' k) eqn:Ek; [|done]. apply eqs_eq in Ek as ->. by rewrite E.
  - rewrite get_app. simpl. destruct (eqs k' k) eqn:Ek.
    + apply eqs_eq in Ek as ->. by rewrite E.
    + by destruct (get k' d).
Qed.

Lemma get_set k v d k' :
  is_Some (get k d) →
  get k' (set k v d) = if eqs k' k then Some v else get k' d.
Proof.
  induction d as [|[k0 v0] d IH]; simpl; intros Hk; [by destruct Hk|].
  destruct (eqs k k0) eqn:E0.
  - apply eqs_eq in E0 as ->. simpl. by destruct (eqs k' k0).
  - simpl. destruct (eqs k' k0) eqn:E1.
    + apply eqs_eq in E1 as ->.
      rewrite eqs_neq; [done|]. intros ->. by rewrite eqs_refl in E0.
    + by apply IH.
Qed.

(** One [config[outer].setdefault(k, v)] on a config whose [outer] is a
    dict. *)
Lemma nested_setdefault_spec outer k v config inner :
  get outer config = Some (YMap inner) →
  ∃ config',
    nested_setdefault outer k v config = Config config'
    ∧ get outer config' = Some (YMap (setdefault k v inner))
    ∧ ∀ k', k' ≠ outer → get k' config' = get k' config.
Proof.
  intros H. unfold nested_setdefault. rewrite H. eexists. split; [done|].
  split.
  - rewrite get_set by (by rewrite H). by rewrite eqs_refl.
  - intros k' Hk'. rewrite get_set by (by rewrite H). by rewrite eqs_neq.
Qed.

Lemma set_same k v d : get k d = Some v → set k v d = d.
Proof.
  induction d as [|[k0 v0] d IH]; simpl; [done|].
  destruct (eqs k k0) eqn:E; [by intros [= ->] | intros H; by rewrite IH].
Qed.

Lemma setdefault_present k v d : is_Some (get k d) → setdefault k v d = d.
Proof. intros [x H]. unfold setdefault. by rewrite H. Qed.

Lemma get_qdrant_defaults inner k :
  get k (qdrant_defaults inner) =
    if eqs k (text "collection_name") then
      Some (default (YStr (text "code_repository")) (get k inner))
    else if eqs k (text "port") then Some (default (YInt 6333) (get k inner))
    else if eqs k (text "url") then Some (default (YStr (text "qdrant")) (get k inner))
    else get k inner.
Proof.
  unfold qdrant_defaults. rewrite !get_setdefault.
  destruct (eqs k (text "collection_name")) eqn:E1.
  - apply eqs_eq in E1 as ->. reflexivity.
  - destruct (eqs k (text "port")) eqn:E2.
    + apply eqs_eq in E2 as ->. reflexivity.
    + destruct (eqs k (text "url")) eqn:E3; [|done].
      by apply eqs_eq in E3 as ->.
Qed.

(** What [load_config] returns for a mapping whose [qdrant] entry, after
    the first [setdefault], is the mapping [inner]. *)
Lemma load_config_map config inner :
  get (text "qdrant") (setdefault (text "qdrant") (YMap []) config)
  = Some (YMap inner) →
  ∃ config',
    load_config (Loaded (YMap config)) = Config config'
    ∧ get (text "qdrant") config' = Some (YMap (qdrant_defaults inner))
    ∧ get (text "embedding_model") config'
      = Some (default (YStr (text "BAAI/bge-small-en-v1.5"))
                (get (text "embedding_model") config))
    ∧ get (text "repositories") config'
      = Some (default (YList [YStr (text "/repos")])
                (get (text "repositories") config))
    ∧ ∀ k, k ≠ text "qdrant" → k ≠ text "embedding_model" →
           k ≠ text "repositories" → get k config' = get k config.
Proof.
  intros H0. cbn [load_config].
  destruct (nested_setdefault_spec (text "qdrant") (text "url")
              (YStr (text "qdrant")) _ _ H0) as (c1 & -> & H1 & K1).
  destruct (nested_setdefault_spec (text "qdrant") (text "port")
              (YInt 6333) _ _ H1) as (c2 & E2 & H2 & K2).
  destruct (nested_setdefault_spec (text "qdrant") (text "collection_name")
              (YStr (text "code_repository")) _ _ H2) as (c3 & E3 & H3 & K3).
  cbn [and_then]. rewrite E2. cbn [and_then]. rewrite E3. cbn [and_then].
  eexists. split; [reflexivity|].
  assert (∀ k, k ≠ text "qdrant" → get k c3 = get k config) as K.
  { intros k Hk. rewrite K3, K2, K1, get_setdefault by done.
    by rewrite eqs_neq. }
  split; [|split; [|split]].
  - rewrite !get_setdefault. eqs_const. by cbv iota.
  - rewrite !get_setdefault. eqs_const. cbv iota. by rewrite K.
  - rewrite !get_setdefault. eqs_const. cbv iota. by rewrite K.
  - intros k Hq He Hr. rewrite !get_setdefault.
    rewrite (eqs_neq k (text "repositories")),
      (eqs_neq k (text "embedding_model")) by done.
    by apply K.
Qed.

Lemma well_formed_inner config :
  well_formed (YMap config) = true →
  ∃ inner,
    get (text "qdrant") (setdefault (text "qdrant") (YMap []) config)
    = Some (YMap inner)
    ∧ (get (text "qdrant") config = Some (YMap inner)
       ∨ (get (text "qdrant") config = None ∧ inner = [])).
Proof.
  unfold well_formed. rewrite get_setdefault, eqs_refl.
  destruct (get (text "qdrant") config) as [[| | | | |inner]|] eqn:E;
    try done; intros _.
  - exists inner. split; [done | by left].
  - exists []. split; [done | by right].
Qed.

Lemma load_config_Config file config' :
  load_config file = Config config' →
  file = Missing ∧ config' = default_config
  ∨ ∃ config, file = Loaded (YMap config) ∧ well_formed (YMap config) = true.
Proof.
  destruct file as [| |[| | | | |config]]; try done.
  - intros [= <-]. by left.
  - intros H. right. exists config. split; [done|].
    unfold well_formed. cbn [load_config] in H.
    unfold nested_setdefault at 1 in H. rewrite get_setdefault, eqs_refl in H.
    by destruct (get (text "qdrant") config) as [[| | | | |inner]|].
Qed.

(** X13: whenever [load_config] returns, the five settings the services
    read are there: [config['qdrant']['url']], [['port']] and
    [['collection_name']], [config['embedding_model']] and
    [config['repositories']] are all present. *)
Theorem load_config_has_every_setting (file : config_file) (config : dict) :
  load_config file = Config config →
  is_Some (get2 (text "qdrant") (text "url") config)
  ∧ is_Some (get2 (text "qdrant") (text "port") config)
  ∧ is_Some (get2 (text "qdrant") (text "collection_name") config)
  ∧ is_Some (get (text "embedding_model") config)
  ∧ is_Some (get (text "repositories") config).
Proof.
  intros H. destruct (load_config_Config _ _ H) as [[-> ->]|(m & -> & Hwf)].
  - repeat split; by eexists.
  - destruct (well_formed_inner _ Hwf) as (inner & Hinner & _).
    destruct (load_config_map _ _ Hinner) as (c & Hc & Hq & He & Hr & _).
    rewrite H in Hc. injection Hc as <-.
    unfold get2. rewrite Hq, He, Hr, !get_qdrant_defaults.
    eqs_const. cbv iota. repeat split; by eexists.
Qed.

Lemma load_config_has_every_setting_witness :
  is_Some (get2 (text "qdrant") (text "url") default_config)
  ∧ is_Some (get2 (text "qdrant") (text "port") default_config)
  ∧ is_Some (get2 (text "qdrant") (text "collection_name") default_config)
  ∧ is_Some (get (text "embedding_model") default_config)
  ∧ is_Some (get (text "repositories") default_config).
Proof.
  apply (load_config_has_every_setting Missing). reflexivity.
Defined.



(** X15: when [load_config] raises.  A missing file gives the defaults,
    the same configuration as an empty mapping; a file that cannot be read
    or parsed raises; a loaded document is completed when it is a mapping
    whose [qdrant] entry, if any, is a mapping, and raises [AttributeError]
    otherwise, so for an empty file or for [qdrant:] left without value. *)
Theorem load_config_outcomes (document : yaml) :
  load_config Missing = load_config (Loaded (YMap []))
  ∧ load_config Unreadable = ConfigRaise LoadError
  ∧ (well_formed document = true →
     ∃ config, load_config (Loaded document) = Config config)
  ∧ (well_formed document = false →
     load_config (Loaded document) = ConfigRaise AttributeError).
Proof.
  split; [done|]. split; [done|]. split.
  - destruct document as [| | | | |config]; try done. intros Hwf.
    destruct (well_formed_inner _ Hwf) as (inner & Hinner & _).
    destruct (load_config_map _ _ Hinner) as (c & Hc & _). by exists c.
  - destruct document as [| | | | |config]; try done.
    unfold well_formed. cbn [load_config].
    unfold nested_setdefault at 1. rewrite get_setdefault, eqs_refl.
    by destruct (get (text "qdrant") config) as [[| | | | |inner]|].
Qed.

Lemma load_config_outcomes_witness :
  (∃ config,
     load_config (Loaded (YMap [(text "repositories", YList [YStr (text "/src")])]))
     = Config config)
  ∧ load_config (Loaded YNull) = ConfigRaise AttributeError
  ∧ load_config (Loaded (YMap [(text "qdrant", YNull)])) = ConfigRaise AttributeError.
Proof.
  split; [|split].
  - by apply (load_config_outcomes
                (YMap [(text "repositories", YList [YStr (text "/src")])])).
  - by apply (load_config_outcomes YNull).
  - by apply (load_config_outcomes (YMap [(text "qdrant", YNull)])).
Defined.

(** X16: a configuration that [load_config] returned is complete: loading
    it again changes nothing. *)
Theorem load_config_is_idempotent (config config' : dict) :
  load_config (Loaded (YMap config)) = Config config' →
  load_config (Loaded (YMap config')) = Config config'.
Proof.
  intros H. destruct (load_config_Config _ _ H) as [[? _]|(m & [= <-] & Hwf)];
    [done|].
  destruct (well_formed_inner _ Hwf) as (inner & Hinner & _).
  destruct (load_config_map _ _ Hinner) as (c & Hc & Hq & He & Hr & _).
  rewrite H in Hc. injection Hc as <-.
  set (q := qdrant_defaults inner) in *.
  assert (∀ k v, is_Some (get k q) →
            nested_setdefault (text "qdrant") k v config' = Config config') as Hn.
  { intros k v Hk. unfold nested_setdefault. rewrite Hq.
    rewrite setdefault_present by done. by rewrite set_same. }
  cbn [load_config].
  rewrite (setdefault_present (text "qdrant")) by (by rewrite Hq).
  rewrite !Hn by (unfold q; by rewrite get_qdrant_defaults). cbn [and_then].
  rewrite Hn by (unfold q; by rewrite get_qdrant_defaults). cbn [and_then].
  rewrite Hn by (unfold q; by rewrite get_qdrant_defaults). cbn [and_then].
  rewrite (setdefault_present (text "embedding_model")) by (by rewrite He).
  by rewrite (setdefault_present (text "repositories")) by (by rewrite Hr).
Qed.

Lemma load_config_is_idempotent_witness :
  load_config (Loaded (YMap default_config)) = Config default_config.
Proof.
  by apply (load_config_is_idempotent []).
Defined.

End ConfigFacts.

(** ** The start-up of the indexer *)

Section MainFacts.

Import Main.

Variable glob : str → list str.
Variable read_file : str → outcome str.
Variable relpath : str → str → outcome str.
Variable embedding : Type.
Variable encode : list str → list embedding.

Local Abbreviation qdrant := (Main.qdrant embedding).
Local Abbreviation main := (Main.main glob read_file relpath embedding encode).
Local Abbreviation index_all :=
  (Main.index_all glob read_file relpath embedding encode).
Local Abbreviation index_repositories :=
  (Indexer.index_repositories glob read_file relpath embedding encode).
Local Abbreviation stored q := (collection embedding (contents embedding q)).
Local Abbreviation upserted q := (upserts embedding (contents embedding q)).

(** Neither the check of the collection nor its creation calls [upsert]. *)
Lemma delete_collection_upserts f (q : qdrant) :
  upserted (delete_collection embedding f q).2 = upserted q.
Proof. unfold delete_collection. by destruct (delete_fault f). Qed.

Lemma on_check_error_upserts f e (q : qdrant) :
  (on_check_error embedding f e q).1 = true
  ∧ upserted (on_check_error embedding f e q).2 = upserted q.
Proof.
  destruct e; [|done]. unfold on_check_error, on_parse_problem.
  set (q1 := logm _ _ (logm _ _ q)).
  pose proof (delete_collection_upserts f q1) as H.
  by destruct (delete_collection embedding f q1) as [[|] q2].
Qed.

(** After the check, either the collection is to be created, or it exists
    with the vector size of the model and nothing of it was touched. *)
Lemma check_collection_spec f embedding_dim (q : qdrant) :
  upserted (check_collection embedding f embedding_dim q).2 = upserted q
  ∧ ((check_collection embedding f embedding_dim q).1 = false →
     present embedding (check_collection embedding f embedding_dim q).2 = true
     ∧ vector_size embedding (check_collection embedding f embedding_dim q).2
       = embedding_dim).
Proof.
  unfold check_collection. destruct (present embedding q) eqn:Hp; [|done].
  unfold get_collection. rewrite Hp.
  destruct (info_fault f) as [e|] eqn:Hf.
  - pose proof (on_check_error_upserts f e q) as [H1 H2].
    split; [done|]. by rewrite H1.
  - destruct (vector_size embedding q =? embedding_dim) eqn:Hd; cbn [negb].
    + apply Nat.eqb_eq in Hd. done.
    + set (q1 := logm _ _ (logm _ _ (logm _ _ q))).
      pose proof (delete_collection_upserts f q1) as H.
      destruct (delete_collection embedding f q1) as [[u|e] q2]; [done|].
      pose proof (on_check_error_upserts f e q2) as [H1 H2]. simpl in *.
      split; [by rewrite H2, H|]. by rewrite H1.
Qed.

Lemma create_collection_spec f size (q q' : qdrant) u :
  create_collection embedding f size q = (Returned u, q') →
  present embedding q' = true ∧ vector_size embedding q' = size
  ∧ upserted q' = upserted q.
Proof.
  unfold create_collection. destruct (create_fault f); [done|].
  destruct (present embedding q) eqn:Hp; [done|]. by intros [= _ <-].
Qed.

Lemma create_collection_raised f size (q q' : qdrant) e :
  create_collection embedding f size q = (Raised e, q') → q' = q.
Proof.
  unfold create_collection. destruct (create_fault f); [by intros [= _ <-]|].
  destruct (present embedding q); [by intros [= _ <-] | done].
Qed.

Lemma index_all_spec repositories (q : qdrant) :
  present embedding (index_all repositories q).2 = present embedding q
  ∧ vector_size embedding (index_all repositories q).2 = vector_size embedding q
  ∧ contents embedding (index_all repositories q).2
    = (index_repositories repositories (contents embedding q)).2
  ∧ (index_all repositories q).1
    = (index_repositories repositories (contents embedding q)).1.
Proof.
  unfold Main.index_all.
  by destruct (index_repositories repositories (contents embedding q)) as [[[]|e] c].
Qed.

(** X17: [main] never upserts into a collection of another vector size:
    if a run of [main] made any [upsert] call, then the collection exists
    and its vector size is the dimension of the embedding model, whatever
    the store held before and whichever client calls failed. *)
Theorem main_upserts_only_into_a_collection_of_the_model_dimension
  (f : faults) (embedding_dim : nat) (repositories : list str) (q : qdrant) :
  upserted (main f embedding_dim repositories q).2 ≠ upserted q →
  present embedding (main f embedding_dim repositories q).2 = true
  ∧ vector_size embedding (main f embedding_dim repositories q).2 = embedding_dim.
Proof.
  unfold Main.main.
  set (q0 := logm _ _ (logm _ _ q)).
  pose proof (check_collection_spec f embedding_dim q0) as [Hup Hkeep].
  destruct (check_collection embedding f embedding_dim q0) as [[|] q1];
    simpl in Hup, Hkeep.
  - set (q2 := logm _ _ q1).
    destruct (create_collection embedding f embedding_dim q2) as [[u|e] q3] eqn:Ec.
    + apply create_collection_spec in Ec as (Hp & Hs & _).
      destruct (index_all_spec repositories q3) as (-> & -> & _). by intros _.
    + apply create_collection_raised in Ec as ->. simpl. by rewrite Hup.
  - destruct (Hkeep eq_refl) as (Hp & Hs).
    destruct (index_all_spec repositories q1) as (-> & -> & _). by intros _.
Qed.

(** X18: when the collection exists, its information can be read and its
    vector size is the model's, [main] deletes and creates nothing: it runs
    the indexing loop on the store as it is, and every id stored before is
    still stored afterwards. *)
Theorem main_keeps_a_collection_of_the_right_dimension
  (f : faults) (embedding_dim : nat) (repositories : list str) (q : qdrant) :
  present embedding q = true →
  info_fault f = None →
  vector_size embedding q = embedding_dim →
  contents embedding (main f embedding_dim repositories q).2
  = (index_repositories repositories (contents embedding q)).2
  ∧ (main f embedding_dim repositories q).1
    = (index_repositories repositories (contents embedding q)).1
  ∧ ∀ k, is_Some (stored q !! k) →
         is_Some (stored (main f embedding_dim repositories q).2 !! k).
Proof.
  intros Hp Hf Hd. unfold Main.main, check_collection, get_collection.
  cbn [logm present vector_size]. rewrite Hp, Hf, Hd, Nat.eqb_refl. cbn [negb].
  match goal with |- context [index_all _ ?q1] =>
    destruct (index_all_spec repositories q1) as (_ & _ & Hc & Ho) end.
  simpl in Hc, Ho. split; [done|]. split; [done|].
  intros k Hk. simpl. rewrite Hc.
  destruct (uniform_index_repositories glob read_file relpath embedding encode
              repositories) as (o & B & E & H).
  rewrite H. by apply client_add_grows.
Qed.

Lemma store_points_from (m : gmap nat (point embedding)) points k p :
  store_points embedding m points !! k = Some p →
  p ∈ points ∨ m !! k = Some p.
Proof.
  revert m. induction points as [|x points IH]; intros m H; [by right|].
  rewrite store_points_cons in H. apply IH in H as [H|H].
  - left. by right.
  - apply lookup_insert_Some in H as [[_ <-]|[_ H]]; [left; by left | by right].
Qed.

(** X19: when the collection exists with another vector size (and the
    delete and create calls go through), [main] drops it and indexes into a
    new, empty collection of the model's dimension: every point stored
    afterwards was upserted in this run, and nothing stored before remains
    unless this run wrote its id again. *)
Theorem main_recreates_a_collection_of_another_dimension
  (f : faults) (embedding_dim : nat) (repositories : list str) (q : qdrant) :
  present embedding q = true →
  info_fault f = None →
  delete_fault f = None →
  create_fault f = None →
  vector_size embedding q ≠ embedding_dim →
  present embedding (main f embedding_dim repositories q).2 = true
  ∧ vector_size embedding (main f embedding_dim repositories q).2 = embedding_dim
  ∧ contents embedding (main f embedding_dim repositories q).2
    = (index_repositories repositories
         (with_points embedding ∅ (contents embedding q))).2
  ∧ ∃ batches,
      upserted (main f embedding_dim repositories q).2 = upserted q ++ batches
      ∧ ∀ k p, stored (main f embedding_dim repositories q).2 !! k = Some p →
               p ∈ concat batches.
Proof.
  intros Hp Hf Hdel Hcr Hd.
  unfold Main.main, check_collection, get_collection, delete_collection,
    create_collection.
  cbn [logm present vector_size]. rewrite Hp, Hf, Hdel.
  apply Nat.eqb_neq in Hd. rewrite Hd. cbn [negb logm present vector_size].
  rewrite Hcr. cbn [present].
  match goal with |- context [index_all _ ?q1] => set (q2 := q1) end.
  destruct (index_all_spec repositories q2) as (-> & -> & -> & _).
  assert (contents embedding q2 = with_points embedding ∅ (contents embedding q))
    as -> by done.
  split; [done|]. split; [done|]. split; [done|].
  destruct (uniform_index_repositories glob read_file relpath embedding encode
              repositories) as (o & B & E & H).
  rewrite H. exists B. split; [done|].
  intros k p. simpl. rewrite store_points_concat.
  intros [Hin|Hin]%store_points_from; [done | by rewrite lookup_empty in Hin].
Qed.

(** X20: when reading the collection's information fails with an error
    other than [ResponseHandlingException], [main] goes on to create a
    collection that is still there; the store refuses, [main] logs that and
    returns: nothing is deleted and no repository is indexed. *)
Theorem main_indexes_nothing_after_a_failed_check
  (f : faults) (embedding_dim : nat) (repositories : list str) (q : qdrant) :
  present embedding q = true →
  info_fault f = Some OtherException →
  (main f embedding_dim repositories q).1 = Ok tt
  ∧ contents embedding (main f embedding_dim repositories q).2
    = contents embedding q
  ∧ present embedding (main f embedding_dim repositories q).2 = true
  ∧ vector_size embedding (main f embedding_dim repositories q).2
    = vector_size embedding q.
Proof.
  intros Hp Hf. unfold Main.main, check_collection, get_collection.
  cbn [logm present vector_size]. rewrite Hp, Hf. cbn [on_check_error].
  unfold create_collection. cbn [logm present].
  destruct (create_fault f); by rewrite ?Hp.
Qed.

End MainFacts.

Lemma main_upserts_witness :
  Main.present nat (SampleStore.main SampleStore.no_faults 3
                      (SampleStore.store_of_size 2)).2 = true
  ∧ Main.vector_size nat (SampleStore.main SampleStore.no_faults 3
                            (SampleStore.store_of_size 2)).2 = 3.
Proof.
  apply (main_upserts_only_into_a_collection_of_the_model_dimension
           Sample.glob Sample.read_file Sample.relpath nat Sample.encode).
  vm_compute. intros H. discriminate H.
Defined.

Lemma main_keeps_witness :
  is_Some (collection nat
             (Main.contents nat
                (SampleStore.main SampleStore.no_faults 3
                   (SampleStore.store_of_size 3)).2) !! 7).
Proof.
  destruct (main_keeps_a_collection_of_the_right_dimension
              Sample.glob Sample.read_file Sample.relpath nat Sample.encode
              SampleStore.no_faults 3 [text "/repos/a"]
              (SampleStore.store_of_size 3) eq_refl eq_refl eq_refl)
    as (_ & _ & H).
  apply H. by eexists.
Defined.

Lemma main_recreates_witness :
  Main.vector_size nat (SampleStore.main SampleStore.no_faults 3
                          (SampleStore.store_of_size 2)).2 = 3
  ∧ ∃ batches,
      upserts nat (Main.contents nat
                     (SampleStore.main SampleStore.no_faults 3
                        (SampleStore.store_of_size 2)).2)
      = upserts nat (Main.contents nat (SampleStore.store_of_size 2)) ++ batches
      ∧ ∀ k p,
          collection nat (Main.contents nat
                            (SampleStore.main SampleStore.no_faults 3
                               (SampleStore.store_of_size 2)).2) !! k = Some p →
          p ∈ concat batches.
Proof.
  destruct (main_recreates_a_collection_of_another_dimension
              Sample.glob Sample.read_file Sample.relpath nat Sample.encode
              SampleStore.no_faults 3 [text "/repos/a"]
              (SampleStore.store_of_size 2) eq_refl eq_refl eq_refl eq_refl)
    as (_ & Hs & _ & Hb); [simpl; lia|].
  split; [exact Hs | exact Hb].
Defined.

Lemma main_indexes_nothing_witness :
  (SampleStore.main SampleStore.failing_check 3 (SampleStore.store_of_size 3)).1
  = Ok tt
  ∧ Main.contents nat
      (SampleStore.main SampleStore.failing_check 3 (SampleStore.store_of_size 3)).2
    = Main.contents nat (SampleStore.store_of_size 3).
Proof.
  destruct (main_indexes_nothing_after_a_failed_check
              Sample.glob Sample.read_file Sample.relpath nat Sample.encode
              SampleStore.failing_check 3 [text "/repos/a"]
              (SampleStore.store_of_size 3) eq_refl eq_refl)
    as (H1 & H2 & _).
  split; [exact H1 | exact H2].
Defined.

(** ** The dispatch on the file extension *)

Section DispatchFacts.

Lemma rfind_None c s : c ∉ s → rfind c s = None.
Proof.
  induction s as [|x s IH]; intros H; simpl; [done|].
  rewrite IH by (intros ?; apply H; by right).
  destruct (eqc x c) eqn:E; [|done]. apply eqc_eq in E as ->.
  destruct H. by left.
Qed.

Lemma rfind_app_absent c a b : c ∉ b → rfind c (a ++ b) = rfind c a.
Proof.
  intros H. induction a as [|x a IH]; simpl.
  - by apply rfind_None.
  - by rewrite IH.
Qed.

Lemma rfind_app_last c a b : c ∉ b → rfind c (a ++ c :: b) = Some (length a).
Proof.
  intros H. induction a as [|x a IH]; simpl.
  - by rewrite rfind_None, eqc_refl.
  - by rewrite IH.
Qed.

Lemma rfind_lt c s i : rfind c s = Some i → i < length s.
Proof.
  revert i. induction s as [|x s IH]; intros i; simpl; [done|].
  destruct (rfind c s) as [j|].
  - intros [= <-]. specialize (IH j eq_refl). lia.
  - destruct (eqc x c); [|done]. intros [= <-]. lia.
Qed.

(** [os.path.splitext] on a path that ends in a dot and an extension: the
    extension is what follows the last dot, as long as the file name before
    it is not made of dots only. *)
Lemma splitext_ext_suffix (stem e : str) :
  "."%char ∉ e → "/"%char ∉ e →
  has_non_dot (basename stem) = true →
  splitext_ext (stem ++ "."%char :: e) = "."%char :: e.
Proof.
  intros Hdot Hsep Hname. unfold splitext_ext.
  rewrite (rfind_app_last "."%char stem e Hdot).
  rewrite (rfind_app_absent "/"%char stem ("."%char :: e)).
  2:{ intros [?|?]%elem_of_cons; [done | by apply Hsep]. }
  unfold basename in Hname.
  assert (∀ k, k ≤ length stem →
            slice (stem ++ "."%char :: e) k (length stem) = skipn k stem) as Hslice.
  { intros k Hk. unfold slice. rewrite drop_app_le by done.
    rewrite take_app_le by (rewrite length_drop; lia).
    apply take_ge. rewrite length_drop. lia. }
  destruct (rfind "/"%char stem) as [i|] eqn:Ei.
  - apply rfind_lt in Ei as Hi.
    assert ((S i <=? length stem) = true) as -> by (apply Nat.leb_le; lia).
    rewrite Hslice by lia. rewrite Hname. simpl.
    by rewrite drop_app_length.
  - simpl. rewrite Hslice by lia. rewrite drop_0, Hname.
    by rewrite drop_app_length.
Qed.

Lemma ext_in_spec ext exts : ext_in ext exts = true ↔ ext ∈ map text exts.
Proof.
  unfold ext_in. rewrite existsb_exists, list_elem_of_In, in_map_iff. split.
  - intros (x & Hx & E). apply eqs_eq in E. by exists x.
  - intros (x & E & Hx). exists x. split; [done|]. by apply eqs_eq.
Qed.

Lemma ext_in_false ext exts : ext ∉ map text exts → ext_in ext exts = false.
Proof.
  intros H. destruct (ext_in ext exts) eqn:E; [|done].
  by apply ext_in_spec in E.
Qed.

(** X21: [chunk_code_file] chooses the segmenter by the text after the
    last dot of the path, compared without regard to case: [py] gives the
    python segmenter, [java], [cs], [cpp], [c] and [h] the c_style one, [js]
    and [ts] the javascript one, and anything else (the [go] and [rb] files
    of the walker among them) the line windows of [chunk_by_lines] with 100
    lines. *)
Theorem chunk_code_file_dispatch (content stem e : str) :
  "."%char ∉ e → "/"%char ∉ e →
  has_non_dot (basename stem) = true →
  (lower e = text "py" →
   chunk_code_file content (stem ++ "."%char :: e)
   = Ok (Python.chunk_python_file content))
  ∧ (lower e ∈ map text ["java"; "cs"; "cpp"; "c"; "h"] →
     chunk_code_file content (stem ++ "."%char :: e)
     = Ok (CStyle.chunk_c_style_file content))
  ∧ (lower e ∈ map text ["js"; "ts"] →
     chunk_code_file content (stem ++ "."%char :: e)
     = Ok (JavaScript.chunk_javascript_file content))
  ∧ (lower e ∉ map text ["py"; "java"; "cs"; "cpp"; "c"; "h"; "js"; "ts"] →
     chunk_code_file content (stem ++ "."%char :: e)
     = ByLines.chunk_by_lines content 100).
Proof.
  intros Hdot Hsep Hname. unfold chunk_code_file.
  rewrite (splitext_ext_suffix stem e Hdot Hsep Hname).
  change (lower ("."%char :: e)) with ("."%char :: lower e).
  split; [|split; [|split]].
  - by intros ->.
  - intros H. simpl in H.
    repeat (apply elem_of_cons in H as [->|H]; [reflexivity|]).
    by apply elem_of_nil in H.
  - intros H. simpl in H.
    repeat (apply elem_of_cons in H as [->|H]; [reflexivity|]).
    by apply elem_of_nil in H.
  - intros H.
    assert (∀ exts,
              (∀ x, x ∈ map text exts →
                    ∃ y, x = "."%char :: y
                         ∧ y ∈ map text ["py"; "java"; "cs"; "cpp"; "c"; "h"; "js"; "ts"]) →
              ext_in ("."%char :: lower e) exts = false) as Hno.
    { intros exts Hexts. apply ext_in_false. intros Hin.
      destruct (Hexts _ Hin) as (y & [= Ey] & Hy). subst y. by apply H. }
    rewrite !Hno; [done|..]; intros x Hx; simpl in Hx;
      repeat (apply elem_of_cons in Hx as [->|Hx];
              [eexists; split; [reflexivity|];
               repeat first [apply list_elem_of_here | apply list_elem_of_further]|]);
      by apply elem_of_nil in Hx.
Qed.

Lemma chunk_code_file_dispatch_witness :
  chunk_code_file (unlines ["x = 1"]) (text "/repos/a/Main" ++ "."%char :: text "PY")
  = Ok (Python.chunk_python_file (unlines ["x = 1"]))
  ∧ chunk_code_file (unlines ["package main"])
      (text "/repos/a/main" ++ "."%char :: text "go")
    = ByLines.chunk_by_lines (unlines ["package main"]) 100.
Proof.
  assert (∀ c e, forallb (fun x => negb (eqc x c)) e = true → c ∉ e) as Hnotin.
  { intros c e H Hin. apply list_elem_of_In in Hin.
    apply (proj1 (forallb_forall _ _) H) in Hin.
    by rewrite eqc_refl in Hin. }
  split.
  - destruct (chunk_code_file_dispatch (unlines ["x = 1"]) (text "/repos/a/Main")
                (text "PY")) as (H & _); [by apply Hnotin..|reflexivity|].
    by apply H.
  - destruct (chunk_code_file_dispatch (unlines ["package main"])
                (text "/repos/a/main") (text "go")) as (_ & _ & _ & H);
      [by apply Hnotin..|reflexivity|].
    apply H. vm_compute. intros Hin.
    repeat (apply elem_of_cons in Hin as [Hin|Hin]; [discriminate Hin|]).
    by apply elem_of_nil in Hin.
Defined.

End DispatchFacts.
